(** * CinemaToday: the session logic of the HomePage component

    A shallow embedding of the two variants of the [HomePage] React
    component of the front end (the full variant with poster, clue history
    and the "New movie" button, and the earlier variant in
    [src/frontend/src/app/page.tsx]), followed by theorems about the clue
    progression, the bounded "different movie" retry loop and the two derived
    display values.

    Conventions of the embedding.
    - A [useState] cell is a field of the record [State]; a setter is a
      function [State -> State]; an event handler is a function from the
      state it was rendered with to the state after all its setters ran,
      paired with the list of HTTP requests it issued.  Handlers run one
      after the other: interleavings of two pending handlers are not
      modelled.  The state rendered while [fetchGame] awaits an answer is
      [pendingLoad].
    - [string | null] is [option string]; an optional, nullable option field
      is [JsOpt].
    - JSON integers ([total_clues], [current_clue_index], ...) are [Z].
    - The arithmetic of the two derived values is done on [number]: the
      doubles as rationals, with the two infinities and NaN, every
      operation rounding to the nearest double.  The sign of zero is not
      modelled.  [Number(x.toFixed(2))] is the double nearest to the
      two-decimal numeral nearest to the exact value of [x]. *)

From Stdlib Require Import ZArith QArith Qround Qminmax Qabs Qpower Lia Lqa.
From Stdlib Require Import List String Bool.
From Stdlib Require Floats.
Import ListNotations.
Open Scope string_scope.
Open Scope Z_scope.

(** ** JavaScript values *)

(** A property that may be missing, [null], or present. *)
Inductive JsOpt (A : Type) : Type :=
  | Undefined
  | Null
  | Val (a : A).
Arguments Undefined {A}.
Arguments Null {A}.
Arguments Val {A} a.

(** [x ?? d] *)
Definition nullish {A : Type} (x : JsOpt A) (d : option A) : option A :=
  match x with
  | Val a => Some a
  | Undefined | Null => d
  end.

(** Truthiness of a [string | null]: [null] and the empty string are falsy. *)
Definition truthy (x : option string) : bool :=
  match x with
  | Some s => negb (String.eqb s "")
  | None => false
  end.

(** [a !== b] for a string [a] and a [string | null] [b]. *)
Definition strict_neq (a : string) (b : option string) : bool :=
  match b with
  | Some b' => negb (String.eqb a b')
  | None => true
  end.

(** ** Numbers

    A JavaScript number is an IEEE 754 binary64 value.  Its finite values
    are rationals, the doubles; an arithmetic operation returns the double
    nearest to the exact result, a tie going to the double with the even
    significand, and an infinity when that double would be [2^1024] or
    more in magnitude.  The sign of zero is not kept. *)

Inductive number : Type :=
  | Fin (q : Q)
  | PosInf
  | NegInf
  | NaN.

(** A literal of the source, an integer small enough to be a double. *)
Definition of_Z (z : Z) : number := Fin (inject_Z z).

Definition Qltb (a b : Q) : bool := negb (Qle_bool b a).

Definition pow2 (e : Z) : Q := (2 ^ e)%Q.

(** For [x] not zero, the [e] with [2^(e-1) <= |x| < 2^e]. *)
Definition mag (x : Q) : Z :=
  let e := Z.log2 (Z.abs (Qnum x)) - Z.log2 (Z.pos (Qden x)) in
  if Qle_bool (pow2 e) (Qabs x) then e + 1 else e.

(** The exponent of the last place of the doubles around [x]: 53 bits of
    significand, and [2^-1074] for the subnormal ones. *)
Definition cexp (x : Q) : Z := Z.max (mag x - 53) (- 1074).

(** The integer nearest to [y], the even one of two. *)
Definition round_half_even (y : Q) : Z :=
  let f := Qfloor y in
  match (y - inject_Z f ?= 1 # 2)%Q with
  | Lt => f
  | Gt => f + 1
  | Eq => if Z.even f then f else f + 1
  end.

(** Rounding to nearest, ties to even, with no bound on the exponent. *)
Definition rne (x : Q) : Q :=
  if Qeq_bool x 0 then 0%Q
  else (inject_Z (round_half_even (x * pow2 (- cexp x))) * pow2 (cexp x))%Q.

(** The number an exact result is returned as. *)
Definition round (x : Q) : number :=
  let r := rne x in
  if Qle_bool (pow2 1024) (Qabs r)
  then if Qle_bool 0 x then PosInf else NegInf
  else Fin r.

(** An integer read from JSON. *)
Definition of_integer (z : Z) : number := round (inject_Z z).

(** [a / b] *)
Definition num_div (a b : number) : number :=
  match a, b with
  | NaN, _ | _, NaN => NaN
  | Fin x, Fin y =>
      if Qeq_bool y 0 then
        if Qeq_bool x 0 then NaN
        else if Qltb 0 x then PosInf else NegInf
      else round (x / y)
  | Fin _, (PosInf | NegInf) => Fin 0
  | PosInf, Fin y => if Qle_bool 0 y then PosInf else NegInf
  | NegInf, Fin y => if Qle_bool 0 y then NegInf else PosInf
  | (PosInf | NegInf), (PosInf | NegInf) => NaN
  end.

(** [a * b] *)
Definition num_mul (a b : number) : number :=
  match a, b with
  | NaN, _ | _, NaN => NaN
  | Fin x, Fin y => round (x * y)
  | Fin x, PosInf | PosInf, Fin x =>
      if Qeq_bool x 0 then NaN else if Qltb 0 x then PosInf else NegInf
  | Fin x, NegInf | NegInf, Fin x =>
      if Qeq_bool x 0 then NaN else if Qltb 0 x then NegInf else PosInf
  | PosInf, PosInf | NegInf, NegInf => PosInf
  | PosInf, NegInf | NegInf, PosInf => NegInf
  end.

(** [a - b] *)
Definition num_sub (a b : number) : number :=
  match a, b with
  | NaN, _ | _, NaN => NaN
  | Fin x, Fin y => round (x - y)
  | Fin _, PosInf => NegInf
  | Fin _, NegInf => PosInf
  | PosInf, Fin _ | PosInf, NegInf => PosInf
  | NegInf, Fin _ | NegInf, PosInf => NegInf
  | PosInf, PosInf | NegInf, NegInf => NaN
  end.

(** [a + b] *)
Definition num_add (a b : number) : number :=
  match a, b with
  | NaN, _ | _, NaN => NaN
  | Fin x, Fin y => round (x + y)
  | Fin _, PosInf | PosInf, Fin _ | PosInf, PosInf => PosInf
  | Fin _, NegInf | NegInf, Fin _ | NegInf, NegInf => NegInf
  | PosInf, NegInf | NegInf, PosInf => NaN
  end.

(** [Math.min(a, b)] *)
Definition num_min (a b : number) : number :=
  match a, b with
  | NaN, _ | _, NaN => NaN
  | NegInf, _ | _, NegInf => NegInf
  | PosInf, c | c, PosInf => c
  | Fin x, Fin y => if Qle_bool x y then Fin x else Fin y
  end.

(** [Math.max(a, b)] *)
Definition num_max (a b : number) : number :=
  match a, b with
  | NaN, _ | _, NaN => NaN
  | PosInf, _ | _, PosInf => PosInf
  | NegInf, c | c, NegInf => c
  | Fin x, Fin y => if Qle_bool x y then Fin y else Fin x
  end.

(** The integer [n] with [n / 100] nearest to [x], for [0 <= x]; of two
    such integers, the larger. *)
Definition nearest_hundredth (x : Q) : Z := Qfloor (x * 100 + (1 # 2))%Q.

(** [Number(a.toFixed(2))]: the sign is split off first, and a magnitude
    of [10^21] or more is printed in full rather than rounded; the decimal
    printed is read back as the double nearest to it. *)
Definition toFixed2 (a : number) : number :=
  match a with
  | Fin x =>
      let m := (if Qltb x 0 then - x else x)%Q in
      if Qle_bool (inject_Z (10 ^ 21)) m then Fin x
      else
        let r := nearest_hundredth m # 100 in
        round (if Qltb x 0 then - r else r)%Q
  | PosInf => PosInf
  | NegInf => NegInf
  | NaN => NaN
  end.

(** Equality and order of numbers as values; NaN is related to nothing. *)
Definition num_eq (a b : number) : Prop :=
  match a, b with
  | Fin x, Fin y => (x == y)%Q
  | PosInf, PosInf | NegInf, NegInf => True
  | _, _ => False
  end.

Definition num_le (a b : number) : Prop :=
  match a, b with
  | NaN, _ | _, NaN => False
  | NegInf, _ | _, PosInf => True
  | Fin x, Fin y => (x <= y)%Q
  | _, _ => False
  end.

Definition num_lt (a b : number) : Prop :=
  match a, b with
  | NaN, _ | _, NaN => False
  | Fin x, Fin y => (x < y)%Q
  | NegInf, (Fin _ | PosInf) | Fin _, PosInf => True
  | _, _ => False
  end.

(** The number [a] is finite, of value [v]. *)
Definition hasValue (a : number) (v : Q) : Prop :=
  exists q, a = Fin q /\ (q == v)%Q.

(** The integers every double below them is exact for. *)
Definition safeInteger (z : Z) : Prop := 0 <= z < 2 ^ 53.

(** The value of a binary64 float of the machine, to compare the rounding
    above with the machine's on closed inputs. *)
Definition float_value (f : PrimFloat.float) : option Q :=
  match FloatOps.Prim2SF f with
  | SpecFloat.S754_zero _ => Some 0%Q
  | SpecFloat.S754_finite negative m e =>
      Some ((if negative then - inject_Z (Z.pos m) else inject_Z (Z.pos m))
            * pow2 e)%Q
  | SpecFloat.S754_infinity _ | SpecFloat.S754_nan => None
  end.

Definition floatIs (f : PrimFloat.float) (a : number) : Prop :=
  match float_value f, a with
  | Some q, Fin v => (q == v)%Q
  | _, _ => False
  end.

(** ** The collaborator *)

(** What awaiting a [fetch] gives: a 2xx response with its JSON body, a
    response whose [ok] is false, or a rejected promise. *)
Inductive Response (A : Type) : Type :=
  | Ok200 (body : A)
  | NotOk
  | Rejected.
Arguments Ok200 {A} body.
Arguments NotOk {A}.
Arguments Rejected {A}.

Record GuessBody : Type := mkGuessBody {
  body_movie_slug : string;
  body_guess : string;
  body_current_clue_index : Z
}.

Inductive Request : Type :=
  | GetTodayGame
  | PostGuess (body : GuessBody).

Record GuessResponse : Type := mkGuessResponse {
  correct : bool;
  verdict_finished : bool;
  next_clue_index : Z;
  next_clue_text : option string;
  reveal_title : option string;
  reveal_poster_url : option string;
  message : string
}.

(** ** The full variant of the component *)

Module HomePage.

Record TodayGameResponse : Type := mkTodayGameResponse {
  game_date : string;
  movie_slug : string;
  total_clues : Z;
  current_clue_index : Z;
  current_clue_text : string;
  solved : bool;
  poster_url : option string
}.

Record State : Type := mkState {
  game : option TodayGameResponse;
  currentClueIndex : Z;
  currentClueText : option string;
  isLoadingGame : bool;
  guess : string;
  statusMessage : option string;
  finished : bool;
  revealedTitle : option string;
  posterUrl : option string;
  previousClues : list string
}.

(** The state of the first render. *)
Definition initialState : State :=
  mkState None 0 None false "" None false None None [].

Definition setGame (v : option TodayGameResponse) (s : State) : State :=
  mkState v (currentClueIndex s) (currentClueText s) (isLoadingGame s)
    (guess s) (statusMessage s) (finished s) (revealedTitle s) (posterUrl s)
    (previousClues s).

Definition setCurrentClueIndex (v : Z) (s : State) : State :=
  mkState (game s) v (currentClueText s) (isLoadingGame s) (guess s)
    (statusMessage s) (finished s) (revealedTitle s) (posterUrl s)
    (previousClues s).

Definition setCurrentClueText (v : option string) (s : State) : State :=
  mkState (game s) (currentClueIndex s) v (isLoadingGame s) (guess s)
    (statusMessage s) (finished s) (revealedTitle s) (posterUrl s)
    (previousClues s).

Definition setIsLoadingGame (v : bool) (s : State) : State :=
  mkState (game s) (currentClueIndex s) (currentClueText s) v (guess s)
    (statusMessage s) (finished s) (revealedTitle s) (posterUrl s)
    (previousClues s).

Definition setGuess (v : string) (s : State) : State :=
  mkState (game s) (currentClueIndex s) (currentClueText s) (isLoadingGame s)
    v (statusMessage s) (finished s) (revealedTitle s) (posterUrl s)
    (previousClues s).

Definition setStatusMessage (v : option string) (s : State) : State :=
  mkState (game s) (currentClueIndex s) (currentClueText s) (isLoadingGame s)
    (guess s) v (finished s) (revealedTitle s) (posterUrl s)
    (previousClues s).

Definition setFinished (v : bool) (s : State) : State :=
  mkState (game s) (currentClueIndex s) (currentClueText s) (isLoadingGame s)
    (guess s) (statusMessage s) v (revealedTitle s) (posterUrl s)
    (previousClues s).

Definition setRevealedTitle (v : option string) (s : State) : State :=
  mkState (game s) (currentClueIndex s) (currentClueText s) (isLoadingGame s)
    (guess s) (statusMessage s) (finished s) v (posterUrl s)
    (previousClues s).

Definition setPosterUrl (v : option string) (s : State) : State :=
  mkState (game s) (currentClueIndex s) (currentClueText s) (isLoadingGame s)
    (guess s) (statusMessage s) (finished s) (revealedTitle s) v
    (previousClues s).

(** The setter of [previousClues] is called with an updater function. *)
Definition setPreviousClues (f : list string -> list string) (s : State)
  : State :=
  mkState (game s) (currentClueIndex s) (currentClueText s) (isLoadingGame s)
    (guess s) (statusMessage s) (finished s) (revealedTitle s) (posterUrl s)
    (f (previousClues s)).

(** *** fetchGame *)

Record FetchOptions : Type := mkFetchOptions {
  opt_requireDifferent : option bool;
  opt_excludeSlug : JsOpt string
}.

(** How the [while] loop of [fetchGame] is left. *)
Inductive LoopExit : Type :=
  | Found (nextGame : TodayGameResponse)
  | NotFound
  | Thrown.

(** The loop [while (attempt < maxAttempts)], by recursion on
    [maxAttempts - attempt]; [srv n] is what the [n]-th fetch of this call
    returns, counting from 0.  The second component lists the requests
    issued, in order. *)
Fixpoint fetchLoop (requireDifferent : bool) (excludeSlug : option string)
    (srv : nat -> Response TodayGameResponse) (remaining attempt : nat)
  : LoopExit * list Request :=
  match remaining with
  | O => (NotFound, [])
  | S remaining' =>
      match srv attempt with
      | Ok200 data =>
          if negb requireDifferent
             || negb (truthy excludeSlug)
             || strict_neq (movie_slug data) excludeSlug
          then (Found data, [GetTodayGame])
          else
            let (exit, log) :=
              fetchLoop requireDifferent excludeSlug srv remaining'
                (S attempt) in
            (exit, GetTodayGame :: log)
      | NotOk | Rejected => (Thrown, [GetTodayGame])
      end
  end.

Definition requireDifferentOf (options : option FetchOptions) : bool :=
  match options with
  | Some o =>
      match opt_requireDifferent o with
      | Some b => b
      | None => false
      end
  | None => false
  end.

Definition excludeSlugOf (options : option FetchOptions) : option string :=
  match options with
  | Some o => nullish (opt_excludeSlug o) None
  | None => None
  end.

Definition maxAttemptsOf (requireDifferent : bool) : nat :=
  if requireDifferent then 5%nat else 1%nat.

(** The setters that install a fetched game. *)
Definition installGame (requireDifferent : bool)
    (nextGame : TodayGameResponse) (s : State) : State :=
  let s := setGame (Some nextGame) s in
  let s := setCurrentClueIndex (current_clue_index nextGame) s in
  let s := setCurrentClueText (Some (current_clue_text nextGame)) s in
  let s := setPosterUrl (poster_url nextGame) s in
  let s := setPreviousClues (fun _ => []) s in
  let s := setGuess "" s in
  let s := setFinished false s in
  let s := setRevealedTitle None s in
  if requireDifferent then setStatusMessage None s else s.

Definition msgNoDifferent : string :=
  "Could not find a different movie right now. Try again.".
Definition msgNewMovieFailed : string :=
  "Could not load a new movie. Please try again.".
Definition msgLoadFailed : string :=
  "Could not load today's game.".

Definition fetchGame (options : option FetchOptions)
    (srv : nat -> Response TodayGameResponse) (s : State)
  : State * list Request :=
  let requireDifferent := requireDifferentOf options in
  let excludeSlug := excludeSlugOf options in
  let s := setIsLoadingGame true s in
  let s := if negb requireDifferent then setStatusMessage None s else s in
  let (exit, log) :=
    fetchLoop requireDifferent excludeSlug srv
      (maxAttemptsOf requireDifferent) 0 in
  let s :=
    match exit with
    | Found nextGame => installGame requireDifferent nextGame s
    | NotFound => setStatusMessage (Some msgNoDifferent) s
    | Thrown =>
        setStatusMessage
          (Some (if requireDifferent then msgNewMovieFailed
                 else msgLoadFailed)) s
    end in
  (setIsLoadingGame false s, log).

(** The state rendered while a call of [fetchGame] awaits its first
    answer: the setters before the [try] have run, the flag is up. *)
Definition pendingLoad (options : option FetchOptions) (s : State) : State :=
  let requireDifferent := requireDifferentOf options in
  let s := setIsLoadingGame true s in
  if negb requireDifferent then setStatusMessage None s else s.

(** *** handleSubmitGuess *)

Definition msgGuessFailed : string :=
  "Something went wrong when submitting your guess.".

(** The setters run on a verdict; [rendered] is the state the handler
    closed over, [s] the state being updated. *)
Definition applyVerdict (rendered : State) (data : GuessResponse)
    (s : State) : State :=
  let s := setStatusMessage (Some (message data)) s in
  if correct data || verdict_finished data then
    let s := setFinished true s in
    let s := setRevealedTitle (reveal_title data) s in
    let s :=
      if truthy (reveal_poster_url data)
      then setPosterUrl (reveal_poster_url data) s else s in
    if truthy (next_clue_text data)
    then setCurrentClueText (next_clue_text data) s else s
  else
    let s :=
      setPreviousClues
        (fun prev =>
           match currentClueText rendered with
           | Some text =>
               if truthy (Some text) then (prev ++ [text])%list else prev
           | None => prev
           end) s in
    let s := setCurrentClueIndex (next_clue_index data) s in
    setCurrentClueText (next_clue_text data) s.

Definition handleSubmitGuess (srv : GuessBody -> Response GuessResponse)
    (s : State) : State * list Request :=
  match game s with
  | None => (s, [])
  | Some g =>
      if finished s then (s, [])
      else
        let body := mkGuessBody (movie_slug g) (guess s) (currentClueIndex s) in
        let s' :=
          match srv body with
          | Ok200 data => applyVerdict s data s
          | NotOk | Rejected => setStatusMessage (Some msgGuessFailed) s
          end in
        (setGuess "" s', [PostGuess body])
  end.

(** *** Derived values *)

Definition posterBlurAmount (s : State) : number :=
  match game s with
  | None => of_Z 0
  | Some g =>
      if negb (truthy (posterUrl s)) then of_Z 0
      else if finished s then of_Z 0
      else
        let maxBlur := of_Z 30 in
        let minBlur := of_Z 12 in
        let totalSteps :=
          num_max (num_sub (of_integer (total_clues g)) (of_Z 1)) (of_Z 1) in
        let progressRatio :=
          num_min (num_div (of_integer (currentClueIndex s)) totalSteps)
            (of_Z 1) in
        let blurRange := num_sub maxBlur minBlur in
        toFixed2 (num_sub maxBlur (num_mul progressRatio blurRange))
  end.

Definition clueProgressPercent (s : State) : number :=
  match game s with
  | None => of_Z 0
  | Some g =>
      num_min
        (num_mul
           (num_div (num_add (of_integer (currentClueIndex s)) (of_Z 1))
              (of_integer (total_clues g)))
           (of_Z 100))
        (of_Z 100)
  end.

(** *** The component as a transition system *)

(** What the user and the runtime can do to a mounted component; each action
    carries the collaborator's answers to the requests it triggers. *)
Inductive Action : Type :=
  | Mount (srv : nat -> Response TodayGameResponse)
  | ChangeGuess (value : string)
  | SubmitGuess (srv : GuessBody -> Response GuessResponse)
  | NewMovie (srv : nat -> Response TodayGameResponse).

(** The options the "New movie" button passes to [fetchGame]. *)
Definition newMovieOptions (s : State) : option FetchOptions :=
  Some (mkFetchOptions (Some true)
          (match game s with
           | Some g => Val (movie_slug g)
           | None => Null
           end)).

Definition step (s : State) (a : Action) : State * list Request :=
  match a with
  | Mount srv => fetchGame None srv s
  | ChangeGuess value => (setGuess value s, [])
  | SubmitGuess srv => handleSubmitGuess srv s
  | NewMovie srv => fetchGame (newMovieOptions s) srv s
  end.

(** Whether an action installs a fetched game. *)
Definition loadsSession (s : State) (a : Action) : bool :=
  let found (options : option FetchOptions)
        (srv : nat -> Response TodayGameResponse) :=
    match fst (fetchLoop (requireDifferentOf options) (excludeSlugOf options)
                 srv (maxAttemptsOf (requireDifferentOf options)) 0) with
    | Found _ => true
    | NotFound | Thrown => false
    end in
  match a with
  | Mount srv => found None srv
  | NewMovie srv => found (newMovieOptions s) srv
  | ChangeGuess _ | SubmitGuess _ => false
  end.

Definition run (s : State) (actions : list Action) : State :=
  fold_left (fun s a => fst (step s a)) actions s.

(** Submitting a guess that is answered by the verdict given, and one such
    guess after the other. *)
Definition submit (data : GuessResponse) (s : State) : State :=
  fst (handleSubmitGuess (fun _ => Ok200 data) s).

Definition submitAll (s : State) (verdicts : list GuessResponse) : State :=
  fold_left (fun s data => submit data s) verdicts s.

(** *** What the component renders

    The tree the component returns, as the data it shows: styling, fixed
    captions and React keys are left out, and so is the caption of the
    submit button (it depends on [guess.trim()]); the caption of the "New
    movie" button follows the same flag as its [disabled]. *)

Record PosterImage : Type := mkPosterImage {
  src : string;
  alt : string;
  blurPx : number;
  transform : string
}.

Record GamePanel : Type := mkGamePanel {
  progressWidthPercent : number;
  clueNumber : Z;
  clueCount : Z;
  currentClue : option string;
  guessInput : option string;
  status : option string;
  revealed : option string;
  newMovieDisabled : bool
}.

Record View : Type := mkView {
  poster : option PosterImage;
  revealInProgress : bool;
  previousCluesPanel : option (list (Z * string));
  gameDate : option string;
  loadingNotice : bool;
  panel : option GamePanel
}.

(** [clues.map((clue, index) => ...)] with the label [index + 1]. *)
Fixpoint numberedFrom (index : nat) (clues : list string)
  : list (Z * string) :=
  match clues with
  | [] => []
  | clue :: rest => (Z.of_nat index + 1, clue) :: numberedFrom (S index) rest
  end.

Definition render (s : State) : View :=
  mkView
    (match posterUrl s with
     | Some url =>
         if truthy (Some url) then
           Some (mkPosterImage url
                   (match revealedTitle s with
                    | Some title =>
                        if truthy (Some title) then "Poster for " ++ title
                        else "Blurred poster for today's film"
                    | None => "Blurred poster for today's film"
                    end)
                   (posterBlurAmount s)
                   (if finished s then "scale(1)" else "scale(1.04)"))
         else None
     | None => None
     end)
    (negb (finished s))
    (match game s with
     | Some _ =>
         if (0 <? List.length (previousClues s))%nat
         then Some (numberedFrom 0 (previousClues s)) else None
     | None => None
     end)
    (match game s with
     | Some g => Some (game_date g)
     | None => None
     end)
    (match game s with
     | Some _ => false
     | None => true
     end)
    (match game s with
     | Some g =>
         Some (mkGamePanel
                 (clueProgressPercent s)
                 (currentClueIndex s + 1)
                 (total_clues g)
                 (currentClueText s)
                 (if finished s then None else Some (guess s))
                 (if truthy (statusMessage s) then statusMessage s else None)
                 (if finished s
                  then if truthy (revealedTitle s) then revealedTitle s
                       else None
                  else None)
                 (isLoadingGame s))
     | None => None
     end).

End HomePage.

(** ** The variant of [src/frontend/src/app/page.tsx]

    No poster, no clue history and no reload: one plain fetch on mount and
    the guess handler. *)

Module PageTsx.

Record TodayGameResponse : Type := mkTodayGameResponse {
  game_date : string;
  movie_slug : string;
  total_clues : Z;
  current_clue_index : Z;
  current_clue_text : string;
  solved : bool
}.

Record State : Type := mkState {
  game : option TodayGameResponse;
  currentClueIndex : Z;
  currentClueText : option string;
  guess : string;
  statusMessage : option string;
  finished : bool;
  revealedTitle : option string
}.

Definition initialState : State := mkState None 0 None "" None false None.

Definition setGame (v : option TodayGameResponse) (s : State) : State :=
  mkState v (currentClueIndex s) (currentClueText s) (guess s)
    (statusMessage s) (finished s) (revealedTitle s).

Definition setCurrentClueIndex (v : Z) (s : State) : State :=
  mkState (game s) v (currentClueText s) (guess s) (statusMessage s)
    (finished s) (revealedTitle s).

Definition setCurrentClueText (v : option string) (s : State) : State :=
  mkState (game s) (currentClueIndex s) v (guess s) (statusMessage s)
    (finished s) (revealedTitle s).

Definition setGuess (v : string) (s : State) : State :=
  mkState (game s) (currentClueIndex s) (currentClueText s) v
    (statusMessage s) (finished s) (revealedTitle s).

Definition setStatusMessage (v : option string) (s : State) : State :=
  mkState (game s) (currentClueIndex s) (currentClueText s) (guess s) v
    (finished s) (revealedTitle s).

Definition setFinished (v : bool) (s : State) : State :=
  mkState (game s) (currentClueIndex s) (currentClueText s) (guess s)
    (statusMessage s) v (revealedTitle s).

Definition setRevealedTitle (v : option string) (s : State) : State :=
  mkState (game s) (currentClueIndex s) (currentClueText s) (guess s)
    (statusMessage s) (finished s) v.

Definition fetchGame (srv : Response TodayGameResponse) (s : State)
  : State * list Request :=
  match srv with
  | Ok200 data =>
      let s := setGame (Some data) s in
      let s := setCurrentClueIndex (current_clue_index data) s in
      (setCurrentClueText (Some (current_clue_text data)) s, [GetTodayGame])
  | NotOk | Rejected =>
      (setStatusMessage (Some "Could not load today's game.") s,
       [GetTodayGame])
  end.

Definition applyVerdict (data : GuessResponse) (s : State) : State :=
  let s := setStatusMessage (Some (message data)) s in
  if correct data || verdict_finished data then
    let s := setFinished true s in
    let s := setRevealedTitle (reveal_title data) s in
    if truthy (next_clue_text data)
    then setCurrentClueText (next_clue_text data) s else s
  else
    let s := setCurrentClueIndex (next_clue_index data) s in
    setCurrentClueText (next_clue_text data) s.

Definition handleSubmitGuess (srv : GuessBody -> Response GuessResponse)
    (s : State) : State * list Request :=
  match game s with
  | None => (s, [])
  | Some g =>
      if finished s then (s, [])
      else
        let body := mkGuessBody (movie_slug g) (guess s) (currentClueIndex s) in
        let s' :=
          match srv body with
          | Ok200 data => applyVerdict data s
          | NotOk | Rejected =>
              setStatusMessage
                (Some "Something went wrong when submitting your guess.") s
          end in
        (setGuess "" s', [PostGuess body])
  end.

(** The component mounts once, then the user types and submits. *)
Inductive Action : Type :=
  | Mount (srv : Response TodayGameResponse)
  | ChangeGuess (value : string)
  | SubmitGuess (srv : GuessBody -> Response GuessResponse).

Definition step (s : State) (a : Action) : State * list Request :=
  match a with
  | Mount srv => fetchGame srv s
  | ChangeGuess value => (setGuess value s, [])
  | SubmitGuess srv => handleSubmitGuess srv s
  end.

Definition run (s : State) (actions : list Action) : State :=
  fold_left (fun s a => fst (step s a)) actions s.

(** What this variant renders: the loading notice, or the section of the
    game. *)
Record GameSection : Type := mkGameSection {
  gameDate : string;
  clueNumber : Z;
  clueCount : Z;
  currentClue : option string;
  guessInput : option string;
  status : option string;
  revealed : option string
}.

Inductive View : Type :=
  | LoadingNotice
  | Game (section : GameSection).

Definition render (s : State) : View :=
  match game s with
  | None => LoadingNotice
  | Some g =>
      Game (mkGameSection
              (game_date g)
              (currentClueIndex s + 1)
              (total_clues g)
              (currentClueText s)
              (if finished s then None else Some (guess s))
              (if truthy (statusMessage s) then statusMessage s else None)
              (if finished s
               then if truthy (revealedTitle s) then revealedTitle s
                    else None
               else None))
  end.

End PageTsx.

(** ** From the full variant to the one of page.tsx

    The same JSON is read by both; the earlier variant ignores the poster
    and keeps no history and no loading flag. *)




(** What the user does in a mounted component of either variant. *)
Inductive Input : Type :=
  | Typed (value : string)
  | Submitted (srv : GuessBody -> Response GuessResponse).


Definition pageInput (i : Input) : PageTsx.Action :=
  match i with
  | Typed value => PageTsx.ChangeGuess value
  | Submitted srv => PageTsx.SubmitGuess srv
  end.

(** ** Collaborators and sessions used in examples *)

Definition sessionOf (slug clue : string) (index total : Z)
  : HomePage.TodayGameResponse :=
  HomePage.mkTodayGameResponse "2025-01-01" slug total index clue false
    (Some "https://img.example/poster.jpg").

(** A collaborator that answers the [n]-th fetch with the [n]-th slug of a
    list, and with a failure once the list is used up. *)
Definition serving (slugs : list string) (n : nat)
  : Response HomePage.TodayGameResponse :=
  match nth_error slugs n with
  | Some slug => Ok200 (sessionOf slug "C1" 0 5)
  | None => NotOk
  end.

(** A collaborator that always answers with the same slug. *)
Definition always (slug : string) (_ : nat)
  : Response HomePage.TodayGameResponse :=
  Ok200 (sessionOf slug "C1" 0 5).

(** A verdict that moves on to the next clue. *)
Definition wrongGuess (index : Z) (text : option string) : GuessResponse :=
  mkGuessResponse false false index text None None "Not quite.".

(** A verdict that ends the session. *)
Definition rightGuess (title : option string) : GuessResponse :=
  mkGuessResponse true true 1 None title None "Correct!".

Definition excluding (slug : JsOpt string) : option HomePage.FetchOptions :=
  Some (HomePage.mkFetchOptions (Some true) slug).

(** A state in which a session is being played. *)
Definition playing (slug : string) (index total : Z) (text : option string)
    (prev : list string) : HomePage.State :=
  HomePage.mkState (Some (sessionOf slug "C1" 0 total)) index text false ""
    None false None (Some "https://img.example/poster.jpg") prev.

(** Runs of the full variant in which no action installs a fetched game. *)
Inductive RunsWithoutLoad
  : HomePage.State -> list HomePage.Action -> HomePage.State -> Prop :=
  | rwl_done (s : HomePage.State) : RunsWithoutLoad s [] s
  | rwl_step (s s' : HomePage.State) (a : HomePage.Action)
      (rest : list HomePage.Action) :
      HomePage.loadsSession s a = false ->
      RunsWithoutLoad (fst (HomePage.step s a)) rest s' ->
      RunsWithoutLoad s (a :: rest) s'.

(** The [n] fetches from number [start] on all return the slug [ex]. *)
Definition excludedRun (srv : nat -> Response HomePage.TodayGameResponse)
    (ex : string) (start n : nat) : Prop :=
  forall k, (k < n)%nat ->
    exists d, srv (start + k)%nat = Ok200 d /\ HomePage.movie_slug d = ex.

(** The session of a state of the full variant, as the seven cells that
    hold it, and the clue progress among them. *)
Definition sameSession (s s' : HomePage.State) : Prop :=
  HomePage.game s' = HomePage.game s
  /\ HomePage.currentClueIndex s' = HomePage.currentClueIndex s
  /\ HomePage.currentClueText s' = HomePage.currentClueText s
  /\ HomePage.previousClues s' = HomePage.previousClues s
  /\ HomePage.finished s' = HomePage.finished s
  /\ HomePage.revealedTitle s' = HomePage.revealedTitle s
  /\ HomePage.posterUrl s' = HomePage.posterUrl s.

Definition sameProgress (s s' : HomePage.State) : Prop :=
  HomePage.currentClueIndex s' = HomePage.currentClueIndex s
  /\ HomePage.currentClueText s' = HomePage.currentClueText s
  /\ HomePage.previousClues s' = HomePage.previousClues s
  /\ HomePage.finished s' = HomePage.finished s.

(** A collaborator whose first answer is a failure and which serves the
    slug given from then on. *)
Definition failingOnce (slug : string) (n : nat)
  : Response HomePage.TodayGameResponse :=
  match n with
  | O => NotOk
  | S _ => Ok200 (sessionOf slug "C1" 0 5)
  end.

(** A condition on the state a guess is submitted in and on its verdict,
    required of every guess of a sequence in turn. *)
Fixpoint eachGuess (P : HomePage.State -> GuessResponse -> bool)
    (s : HomePage.State) (verdicts : list GuessResponse) : bool :=
  match verdicts with
  | [] => true
  | data :: rest =>
      P s data
      && eachGuess P (HomePage.submit data s) rest
  end.

(** The collaborator counts in step with the client: a verdict that moves an
    active session on reports the index after the current one, and the clue
    it moves on from has a text. *)
Definition inStep : HomePage.State -> list GuessResponse -> bool :=
  eachGuess
    (fun s data =>
       HomePage.finished s
       || (correct data || verdict_finished data)
       || ((next_clue_index data =? HomePage.currentClueIndex s + 1)
           && truthy (HomePage.currentClueText s))).

(** Every guess is answered by a verdict that moves on, from a clue that has
    a text. *)
Definition advancingFromClues : HomePage.State -> list GuessResponse -> bool :=
  eachGuess
    (fun s data =>
       negb (correct data || verdict_finished data)
       && truthy (HomePage.currentClueText s)).


(** The progress as the specification writes it:
    [min((currentClueIndex + 1) / totalClues, 1) * 100]. *)
Definition progressFormula (currentClueIndex totalClues : Z) : Q :=
  (Qmin (inject_Z (currentClueIndex + 1) / inject_Z totalClues) 1 * 100)%Q.

(** The values the two derived numbers take, stage by stage, when every
    intermediate result is finite: each arithmetic step is rounded. *)
Definition blurStages (currentClueIndex totalClues : Z) : Q :=
  let steps := inject_Z (Z.max (totalClues - 1) 1) in
  let ratio := Qmin (rne (inject_Z currentClueIndex / steps)) 1 in
  let unfixed := rne (30 - rne (ratio * 18)) in
  rne (nearest_hundredth unfixed # 100)%Q.

Definition percentStages (currentClueIndex totalClues : Z) : Q :=
  Qmin
    (rne (rne (inject_Z (currentClueIndex + 1) / inject_Z totalClues) * 100))
    100%Q.

(** The formula of the specification for the progress, each step rounded:
    the minimum is taken before the scaling. *)
Definition progressFormulaRounded (currentClueIndex totalClues : Z) : Q :=
  rne (Qmin (rne (inject_Z (currentClueIndex + 1) / inject_Z totalClues)) 1
       * 100)%Q.

(** What holds of every state the full variant can be in, starting from the
    first render: the loading flag is down between two actions, a title is
    revealed only in a finished session, nothing of a session is there
    before a game is, and no recorded clue is empty. *)
Definition wellFormed (s : HomePage.State) : Prop :=
  HomePage.isLoadingGame s = false
  /\ (HomePage.finished s = false -> HomePage.revealedTitle s = None)
  /\ (HomePage.game s = None ->
      HomePage.currentClueIndex s = 0
      /\ HomePage.currentClueText s = None
      /\ HomePage.previousClues s = []
      /\ HomePage.finished s = false
      /\ HomePage.posterUrl s = None)
  /\ Forall (fun clue => clue <> "") (HomePage.previousClues s).

(** The state a load leaves when it installs the game [g]. *)
Definition freshSession (g : HomePage.TodayGameResponse) : HomePage.State :=
  HomePage.mkState (Some g) (HomePage.current_clue_index g)
    (Some (HomePage.current_clue_text g)) false "" None false None
    (HomePage.poster_url g) [].

(** * Properties *)

(** ** The spec's scenarios, evaluated *)

Example scenario_advance :
  let s := HomePage.submitAll (playing "x" 0 5 (Some "C1") [])
             [wrongGuess 1 (Some "C2")] in
  HomePage.previousClues s = ["C1"]
  /\ HomePage.currentClueText s = Some "C2"
  /\ HomePage.finished s = false.
Proof. repeat split. Qed.

Example scenario_finish :
  let s := HomePage.submitAll (playing "x" 0 5 (Some "C1") [])
             [wrongGuess 1 (Some "C2"); rightGuess (Some "Movie X")] in
  HomePage.previousClues s = ["C1"]
  /\ HomePage.revealedTitle s = Some "Movie X"
  /\ HomePage.finished s = true.
Proof. repeat split. Qed.

(** ** Truthiness *)

Lemma truthy_Some (text : string) :
  truthy (Some text) = true <-> text <> "".
Proof.
  unfold truthy. destruct (String.eqb_spec text ""); simpl; split;
    congruence.
Qed.

Lemma truthy_Some_false (text : string) :
  truthy (Some text) = false <-> text = "".
Proof.
  unfold truthy. destruct (String.eqb_spec text ""); simpl; split;
    congruence.
Qed.

Lemma strict_neq_Some (a b : string) :
  strict_neq a (Some b) = true <-> a <> b.
Proof.
  unfold strict_neq. destruct (String.eqb_spec a b); simpl; split;
    congruence.
Qed.

Lemma strict_neq_refl (a : string) : strict_neq a (Some a) = false.
Proof. unfold strict_neq. now rewrite String.eqb_refl. Qed.

(** ** Guess submission *)

Section GuessSubmission.
Import HomePage.

Variable s : State.
Variable g : TodayGameResponse.
Variable srv : GuessBody -> Response GuessResponse.
Variable data : GuessResponse.

Hypothesis loaded : game s = Some g.
Hypothesis active : finished s = false.
Hypothesis answered :
  srv (mkGuessBody (movie_slug g) (guess s) (currentClueIndex s)) = Ok200 data.

(** With a verdict received, the handler is [applyVerdict] followed by the
    clearing of the input, after exactly one request. *)
Lemma handleSubmitGuess_verdict :
  handleSubmitGuess srv s
  = (setGuess "" (applyVerdict s data s),
     [PostGuess (mkGuessBody (movie_slug g) (guess s) (currentClueIndex s))]).
Proof.
  unfold handleSubmitGuess. rewrite loaded, active, answered. reflexivity.
Qed.

Lemma verdict_finishing :
  correct data || verdict_finished data = true ->
  let s' := fst (handleSubmitGuess srv s) in
  finished s' = true
  /\ revealedTitle s' = reveal_title data
  /\ previousClues s' = previousClues s
  /\ currentClueIndex s' = currentClueIndex s
  /\ currentClueText s'
     = (if truthy (next_clue_text data) then next_clue_text data
        else currentClueText s)
  /\ posterUrl s'
     = (if truthy (reveal_poster_url data) then reveal_poster_url data
        else posterUrl s).
Proof.
  intros Hfin. rewrite handleSubmitGuess_verdict. cbn [fst].
  unfold applyVerdict. rewrite Hfin.
  destruct (truthy (reveal_poster_url data)), (truthy (next_clue_text data));
    repeat split.
Qed.

Lemma verdict_advancing :
  correct data || verdict_finished data = false ->
  let s' := fst (handleSubmitGuess srv s) in
  finished s' = false
  /\ revealedTitle s' = revealedTitle s
  /\ currentClueIndex s' = next_clue_index data
  /\ currentClueText s' = next_clue_text data
  /\ previousClues s'
     = match currentClueText s with
       | Some text =>
           if truthy (Some text) then (previousClues s ++ [text])%list
           else previousClues s
       | None => previousClues s
       end.
Proof.
  intros Hadv. rewrite handleSubmitGuess_verdict. cbn [fst].
  unfold applyVerdict. rewrite Hadv. cbn.
  repeat split; try assumption.
Qed.

End GuessSubmission.

Section GuessSubmissionPageTsx.
Import PageTsx.

Variable s : State.
Variable g : TodayGameResponse.
Variable srv : GuessBody -> Response GuessResponse.
Variable data : GuessResponse.

Hypothesis loaded : game s = Some g.
Hypothesis active : finished s = false.
Hypothesis answered :
  srv (mkGuessBody (movie_slug g) (guess s) (currentClueIndex s)) = Ok200 data.

Lemma page_verdict :
  let s' := fst (handleSubmitGuess srv s) in
  (correct data || verdict_finished data = true ->
   finished s' = true /\ revealedTitle s' = reveal_title data
   /\ currentClueIndex s' = currentClueIndex s)
  /\ (correct data || verdict_finished data = false ->
      finished s' = false
      /\ currentClueIndex s' = next_clue_index data
      /\ currentClueText s' = next_clue_text data).
Proof.
  unfold handleSubmitGuess. rewrite loaded, active, answered. cbn [fst].
  unfold applyVerdict.
  split; intros H; rewrite H.
  - destruct (truthy (next_clue_text data)); repeat split.
  - cbn. repeat split. assumption.
Qed.

End GuessSubmissionPageTsx.

(** C1, as stated, fails: a session whose current clue text is the empty
    string (here straight after a load that reported such a clue) advances
    on a wrong guess without anything being appended to [previousClues]. *)
Lemma advancing_guess_may_not_append :
  let loaded :=
    fst (HomePage.fetchGame None (fun _ => Ok200 (sessionOf "x" "" 0 5))
           HomePage.initialState) in
  let data := wrongGuess 1 (Some "C2") in
  let after := fst (HomePage.handleSubmitGuess (fun _ => Ok200 data) loaded) in
  HomePage.game loaded = Some (sessionOf "x" "" 0 5)
  /\ HomePage.finished loaded = false
  /\ HomePage.currentClueText loaded = Some ""
  /\ correct data || verdict_finished data = false
  /\ HomePage.currentClueIndex after = 1
  /\ HomePage.previousClues after = []
  /\ HomePage.previousClues after
     <> (HomePage.previousClues loaded ++ [""])%list.
Proof.
  cbv zeta. repeat split. cbn. discriminate.
Qed.

(** C1 (amended).  When the verdict of a guess submission is received: if
    [correct] or [finished] is true, [finished] becomes true,
    [revealedTitle] becomes the verdict's [reveal_title] and
    [previousClues] is left as it was; otherwise [currentClueIndex] and
    [currentClueText] become the verdict's [next_clue_index] and
    [next_clue_text], and the clue text that was current before the
    submission is appended to [previousClues] when it is neither null nor
    empty, while a null or empty one leaves [previousClues] as it was.  The
    variant of page.tsx, which keeps no history, makes the same transitions
    on the other fields. *)
Theorem guess_verdict_transition :
  (forall (s : HomePage.State) g srv data,
      HomePage.game s = Some g ->
      HomePage.finished s = false ->
      srv (mkGuessBody (HomePage.movie_slug g) (HomePage.guess s)
             (HomePage.currentClueIndex s)) = Ok200 data ->
      let s' := fst (HomePage.handleSubmitGuess srv s) in
      (correct data || verdict_finished data = true ->
       HomePage.finished s' = true
       /\ HomePage.revealedTitle s' = reveal_title data
       /\ HomePage.previousClues s' = HomePage.previousClues s)
      /\ (correct data || verdict_finished data = false ->
          HomePage.finished s' = false
          /\ HomePage.currentClueIndex s' = next_clue_index data
          /\ HomePage.currentClueText s' = next_clue_text data
          /\ (forall text,
                 HomePage.currentClueText s = Some text -> text <> "" ->
                 HomePage.previousClues s'
                 = (HomePage.previousClues s ++ [text])%list)
          /\ (truthy (HomePage.currentClueText s) = false ->
              HomePage.previousClues s' = HomePage.previousClues s)))
  /\ (forall (s : PageTsx.State) g srv data,
         PageTsx.game s = Some g ->
         PageTsx.finished s = false ->
         srv (mkGuessBody (PageTsx.movie_slug g) (PageTsx.guess s)
                (PageTsx.currentClueIndex s)) = Ok200 data ->
         let s' := fst (PageTsx.handleSubmitGuess srv s) in
         (correct data || verdict_finished data = true ->
          PageTsx.finished s' = true
          /\ PageTsx.revealedTitle s' = reveal_title data)
         /\ (correct data || verdict_finished data = false ->
             PageTsx.finished s' = false
             /\ PageTsx.currentClueIndex s' = next_clue_index data
             /\ PageTsx.currentClueText s' = next_clue_text data)).
Proof.
  split.
  - intros s g srv data Hg Hact Hsrv s'. split; intros Hv.
    + destruct (verdict_finishing s g srv data Hg Hact Hsrv Hv)
        as (Hf & Ht & Hp & _).
      auto.
    + destruct (verdict_advancing s g srv data Hg Hact Hsrv Hv)
        as (Hf & _ & Hi & Hc & Hp).
      fold s' in Hf, Hi, Hc, Hp.
      repeat split; try assumption.
      * intros text Htext Hne. rewrite Hp, Htext.
        apply truthy_Some in Hne. now rewrite Hne.
      * intros Hfalsy. rewrite Hp.
        destruct (HomePage.currentClueText s) as [text|]; [|reflexivity].
        now rewrite Hfalsy.
  - intros s g srv data Hg Hact Hsrv s'.
    destruct (page_verdict s g srv data Hg Hact Hsrv) as [Hfin Hadv].
    split; intros Hv.
    + destruct (Hfin Hv) as (? & ? & _). auto.
    + exact (Hadv Hv).
Qed.

Lemma guess_verdict_transition_witness :
  let s := playing "x" 0 5 (Some "C1") [] in
  let data := wrongGuess 1 (Some "C2") in
  let s' := fst (HomePage.handleSubmitGuess (fun _ => Ok200 data) s) in
  HomePage.currentClueIndex s' = 1
  /\ HomePage.currentClueText s' = Some "C2"
  /\ HomePage.previousClues s' = ["C1"].
Proof.
  cbv zeta.
  destruct (proj1 guess_verdict_transition
              (playing "x" 0 5 (Some "C1") []) (sessionOf "x" "C1" 0 5)
              (fun _ => Ok200 (wrongGuess 1 (Some "C2")))
              (wrongGuess 1 (Some "C2")) eq_refl eq_refl eq_refl)
    as [_ Hadv].
  destruct (Hadv eq_refl) as (_ & Hi & Hc & Hp & _).
  split; [exact Hi | split; [exact Hc |]].
  apply (Hp "C1" eq_refl). discriminate.
Defined.

(** C9.  On a finishing verdict ([correct] or [finished] true)
    [currentClueIndex] is left unchanged; [currentClueText] is overwritten
    with [next_clue_text] only when that is neither null nor empty, and is
    kept otherwise; [posterUrl] is overwritten with [reveal_poster_url]
    only when that is neither null nor empty; [revealedTitle] is set to
    [reveal_title], null included. *)
Theorem finishing_verdict_frame :
  forall (s : HomePage.State) g srv data,
    HomePage.game s = Some g ->
    HomePage.finished s = false ->
    srv (mkGuessBody (HomePage.movie_slug g) (HomePage.guess s)
           (HomePage.currentClueIndex s)) = Ok200 data ->
    correct data || verdict_finished data = true ->
    let s' := fst (HomePage.handleSubmitGuess srv s) in
    HomePage.currentClueIndex s' = HomePage.currentClueIndex s
    /\ (truthy (next_clue_text data) = true ->
        HomePage.currentClueText s' = next_clue_text data)
    /\ (truthy (next_clue_text data) = false ->
        HomePage.currentClueText s' = HomePage.currentClueText s)
    /\ (truthy (reveal_poster_url data) = true ->
        HomePage.posterUrl s' = reveal_poster_url data)
    /\ (truthy (reveal_poster_url data) = false ->
        HomePage.posterUrl s' = HomePage.posterUrl s)
    /\ HomePage.revealedTitle s' = reveal_title data
    /\ (reveal_title data = None -> HomePage.revealedTitle s' = None).
Proof.
  intros s g srv data Hg Hact Hsrv Hv s'.
  destruct (verdict_finishing s g srv data Hg Hact Hsrv Hv)
    as (_ & Ht & _ & Hi & Hc & Hp).
  fold s' in Ht, Hi, Hc, Hp.
  repeat split; try assumption.
  - intros H. now rewrite Hc, H.
  - intros H. now rewrite Hc, H.
  - intros H. now rewrite Hp, H.
  - intros H. now rewrite Hp, H.
  - intros H. now rewrite Ht.
Qed.

Lemma finishing_verdict_frame_witness :
  let s := playing "x" 2 5 (Some "C3") ["C1"; "C2"] in
  let data := mkGuessResponse true false 3 (Some "") None None "Correct!" in
  let s' := fst (HomePage.handleSubmitGuess (fun _ => Ok200 data) s) in
  HomePage.currentClueIndex s' = 2
  /\ HomePage.currentClueText s' = Some "C3"
  /\ HomePage.posterUrl s' = Some "https://img.example/poster.jpg"
  /\ HomePage.revealedTitle s' = None.
Proof.
  cbv zeta.
  destruct (finishing_verdict_frame
              (playing "x" 2 5 (Some "C3") ["C1"; "C2"])
              (sessionOf "x" "C1" 0 5)
              (fun _ => Ok200
                 (mkGuessResponse true false 3 (Some "") None None "Correct!"))
              (mkGuessResponse true false 3 (Some "") None None "Correct!")
              eq_refl eq_refl eq_refl eq_refl)
    as (Hi & _ & Hc & _ & Hp & _ & Ht).
  split; [exact Hi | split; [exact (Hc eq_refl) | split]].
  - exact (Hp eq_refl).
  - exact (Ht eq_refl).
Defined.

(** ** The retry loop *)

Section RetryLoop.
Import HomePage.

Variable srv : nat -> Response TodayGameResponse.

Lemma excludedRun_tail (ex : string) (start n : nat) :
  excludedRun srv ex start (S n) -> excludedRun srv ex (S start) n.
Proof.
  intros H k Hk. replace (S start + k)%nat with (start + S k)%nat by lia.
  apply H. lia.
Qed.

Lemma excludedRun_head (ex : string) (start n : nat) :
  excludedRun srv ex start (S n) ->
  exists d, srv start = Ok200 d /\ movie_slug d = ex.
Proof.
  intros H. replace start with (start + 0)%nat by lia. apply H. lia.
Qed.

(** Never more requests than the attempts allowed, and only fetches of the
    game. *)
Lemma fetchLoop_log (rd : bool) (ex : option string) (remaining : nat) :
  forall attempt,
    exists n, (n <= remaining)%nat
      /\ snd (fetchLoop rd ex srv remaining attempt) = repeat GetTodayGame n.
Proof.
  induction remaining as [|r IH]; intros attempt; cbn [fetchLoop].
  - exists 0%nat. split; [lia | reflexivity].
  - destruct (srv attempt) as [data| |].
    + destruct (negb rd || negb (truthy ex) || strict_neq (movie_slug data) ex).
      * exists 1%nat. split; [lia | reflexivity].
      * destruct (IH (S attempt)) as (n & Hn & Hlog).
        destruct (fetchLoop rd ex srv r (S attempt)) as [exit log].
        cbn in *. exists (S n). split; [lia | now rewrite Hlog].
    + exists 1%nat. split; [lia | reflexivity].
    + exists 1%nat. split; [lia | reflexivity].
Qed.

(** A game the loop hands over in an exclusion load has another slug. *)
Lemma fetchLoop_found_differs (ex : string) (remaining : nat) :
  ex <> "" ->
  forall attempt data,
    fst (fetchLoop true (Some ex) srv remaining attempt) = Found data ->
    movie_slug data <> ex.
Proof.
  intros Hex. apply truthy_Some in Hex.
  induction remaining as [|r IH]; intros attempt data; cbn [fetchLoop].
  - discriminate.
  - destruct (srv attempt) as [d| |]; try discriminate.
    rewrite Hex. cbn [negb orb].
    destruct (strict_neq (movie_slug d) (Some ex)) eqn:Hneq.
    + cbn [fst]. intros [= <-]. now apply strict_neq_Some.
    + specialize (IH (S attempt) data).
      destruct (fetchLoop true (Some ex) srv r (S attempt)) as [exit log].
      exact IH.
Qed.

(** After [n] answers with the excluded slug, an answer with another slug
    is taken, at the fetch number [n + 1]. *)
Lemma fetchLoop_accepts (ex : string) (n : nat) :
  ex <> "" ->
  forall remaining attempt data,
    (n < remaining)%nat ->
    excludedRun srv ex attempt n ->
    srv (attempt + n)%nat = Ok200 data ->
    movie_slug data <> ex ->
    fetchLoop true (Some ex) srv remaining attempt
    = (Found data, repeat GetTodayGame (S n)).
Proof.
  intros Hex. pose proof (proj2 (truthy_Some ex) Hex) as Htr.
  induction n as [|n IH]; intros remaining attempt data Hlt Hrun Hsrv Hslug.
  - destruct remaining as [|r]; [lia|]. cbn [fetchLoop].
    rewrite Nat.add_0_r in Hsrv. rewrite Hsrv, Htr. cbn [negb orb].
    apply strict_neq_Some in Hslug. now rewrite Hslug.
  - destruct remaining as [|r]; [lia|]. cbn [fetchLoop].
    destruct (excludedRun_head _ _ _ Hrun) as (d & Hd & Hdslug).
    rewrite Hd, Htr. cbn [negb orb].
    rewrite Hdslug, strict_neq_refl.
    rewrite (IH r (S attempt) data); [reflexivity | lia | | | assumption].
    + now apply excludedRun_tail.
    + now replace (S attempt + n)%nat with (attempt + S n)%nat by lia.
Qed.

(** Answers with the excluded slug only use up all the attempts. *)
Lemma fetchLoop_exhausts (ex : string) (remaining : nat) :
  ex <> "" ->
  forall attempt,
    excludedRun srv ex attempt remaining ->
    fetchLoop true (Some ex) srv remaining attempt
    = (NotFound, repeat GetTodayGame remaining).
Proof.
  intros Hex. pose proof (proj2 (truthy_Some ex) Hex) as Htr.
  induction remaining as [|r IH]; intros attempt Hrun; cbn [fetchLoop].
  - reflexivity.
  - destruct (excludedRun_head _ _ _ Hrun) as (d & Hd & Hdslug).
    rewrite Hd, Htr. cbn [negb orb].
    rewrite Hdslug, strict_neq_refl.
    now rewrite (IH (S attempt) (excludedRun_tail _ _ _ Hrun)).
Qed.

(** A failed fetch ends the loop on the spot. *)
Lemma fetchLoop_throws (ex : string) (n : nat) :
  ex <> "" ->
  forall remaining attempt,
    (n < remaining)%nat ->
    excludedRun srv ex attempt n ->
    (forall d, srv (attempt + n)%nat <> Ok200 d) ->
    fetchLoop true (Some ex) srv remaining attempt
    = (Thrown, repeat GetTodayGame (S n)).
Proof.
  intros Hex. pose proof (proj2 (truthy_Some ex) Hex) as Htr.
  induction n as [|n IH]; intros remaining attempt Hlt Hrun Hfail.
  - destruct remaining as [|r]; [lia|]. cbn [fetchLoop].
    rewrite Nat.add_0_r in Hfail.
    destruct (srv attempt) as [d| |]; [now destruct (Hfail d) | |];
      reflexivity.
  - destruct remaining as [|r]; [lia|]. cbn [fetchLoop].
    destruct (excludedRun_head _ _ _ Hrun) as (d & Hd & Hdslug).
    rewrite Hd, Htr. cbn [negb orb].
    rewrite Hdslug, strict_neq_refl.
    rewrite (IH r (S attempt)); [reflexivity | lia | |].
    + now apply excludedRun_tail.
    + now replace (S attempt + n)%nat with (attempt + S n)%nat by lia.
Qed.

(** Without a usable slug to exclude, the first answer is taken. *)
Lemma fetchLoop_unchecked (rd : bool) (ex : option string)
    (remaining : nat) (data : TodayGameResponse) :
  truthy ex = false ->
  srv 0%nat = Ok200 data ->
  fetchLoop rd ex srv (S remaining) 0 = (Found data, [GetTodayGame]).
Proof.
  intros Hex Hsrv. cbn [fetchLoop]. rewrite Hsrv, Hex.
  now rewrite orb_true_r.
Qed.

End RetryLoop.

(** ** Loading a game *)

Section Loading.
Import HomePage.

Variable srv : nat -> Response TodayGameResponse.
Variable s : State.

(** An exclusion load is decided by the loop run with five attempts. *)
Lemma fetchGame_excluding (ex : string) :
  fetchGame (Some (mkFetchOptions (Some true) (Val ex))) srv s
  = (setIsLoadingGame false
       match fst (fetchLoop true (Some ex) srv 5 0) with
       | Found nextGame => installGame true nextGame s
       | NotFound => setStatusMessage (Some msgNoDifferent) s
       | Thrown => setStatusMessage (Some msgNewMovieFailed) s
       end,
     snd (fetchLoop true (Some ex) srv 5 0)).
Proof.
  unfold fetchGame.
  cbn [requireDifferentOf excludeSlugOf opt_requireDifferent opt_excludeSlug
       nullish maxAttemptsOf negb].
  destruct (fetchLoop true (Some ex) srv 5 0) as [[g'| |] log]; reflexivity.
Qed.

(** A load that installs nothing leaves a message and the loading flag
    cleared. *)
Lemma fetchGame_nothing_installed (options : option FetchOptions) :
  (forall g',
      fst (fetchLoop (requireDifferentOf options) (excludeSlugOf options) srv
             (maxAttemptsOf (requireDifferentOf options)) 0) <> Found g') ->
  exists msg,
    In msg [msgNoDifferent; msgNewMovieFailed; msgLoadFailed]
    /\ fst (fetchGame options srv s)
       = setIsLoadingGame false (setStatusMessage (Some msg) s).
Proof.
  intros Hnot. unfold fetchGame.
  destruct (fetchLoop (requireDifferentOf options) (excludeSlugOf options)
              srv (maxAttemptsOf (requireDifferentOf options)) 0)
    as [[g'| |] log]; cbn [fst] in *.
  - now destruct (Hnot g').
  - exists msgNoDifferent. split; [now left|].
    destruct (requireDifferentOf options); reflexivity.
  - destruct (requireDifferentOf options).
    + exists msgNewMovieFailed. split; [right; now left | reflexivity].
    + exists msgLoadFailed. split; [right; right; now left | reflexivity].
Qed.

Lemma loadsSession_false_NewMovie :
  loadsSession s (NewMovie srv) = false ->
  forall g',
    fst (fetchLoop (requireDifferentOf (newMovieOptions s))
           (excludeSlugOf (newMovieOptions s)) srv
           (maxAttemptsOf (requireDifferentOf (newMovieOptions s))) 0)
    <> Found g'.
Proof.
  unfold loadsSession. intros H g' Hfound. rewrite Hfound in H. discriminate.
Qed.

Lemma loadsSession_false_Mount :
  loadsSession s (Mount srv) = false ->
  forall g',
    fst (fetchLoop (requireDifferentOf None) (excludeSlugOf None) srv
           (maxAttemptsOf (requireDifferentOf None)) 0)
    <> Found g'.
Proof.
  unfold loadsSession. intros H g' Hfound. rewrite Hfound in H. discriminate.
Qed.

End Loading.

(** C2.  An exclusion load (a load that requires a different movie, with
    a slug to exclude that is present and not empty) issues at most five
    fetches, one after the other, and accepts the first fetched session
    whose [movie_slug] differs from the excluded one: a session it installs
    never has the excluded slug; after [n < 5] answers with the excluded
    slug, an answer with another slug is installed with [n + 1] fetches made
    (the third fetch for two excluded answers); and when the collaborator
    answers with the excluded slug every time, exactly five fetches are made
    and the outcome is the message that no different movie was found. *)
Theorem exclusion_load_bounded_retry :
  forall (ex : string) (srv : nat -> Response HomePage.TodayGameResponse)
         (s : HomePage.State),
    ex <> "" ->
    let options := Some (HomePage.mkFetchOptions (Some true) (Val ex)) in
    let result := HomePage.fetchGame options srv s in
    (exists n, (n <= 5)%nat /\ snd result = repeat GetTodayGame n)
    /\ (forall g',
           fst (HomePage.fetchLoop true (Some ex) srv 5 0) = HomePage.Found g' ->
           HomePage.movie_slug g' <> ex)
    /\ (forall n data,
           (n < 5)%nat ->
           excludedRun srv ex 0 n ->
           srv n = Ok200 data ->
           HomePage.movie_slug data <> ex ->
           result
           = (HomePage.setIsLoadingGame false
                (HomePage.installGame true data s),
              repeat GetTodayGame (S n))
           /\ HomePage.game (fst result) = Some data)
    /\ (excludedRun srv ex 0 5 ->
        result
        = (HomePage.setIsLoadingGame false
             (HomePage.setStatusMessage (Some HomePage.msgNoDifferent) s),
           repeat GetTodayGame 5)).
Proof.
  intros ex srv s Hex options result. subst options result.
  rewrite fetchGame_excluding. cbn [fst snd].
  split; [|split; [|split]].
  - destruct (fetchLoop_log srv true (Some ex) 5 0) as (n & Hn & Hlog).
    exists n. now split.
  - intros g' Hfound. now apply (fetchLoop_found_differs srv ex 5 Hex 0%nat).
  - intros n data Hn Hrun Hsrv Hslug.
    rewrite (fetchLoop_accepts srv ex n Hex 5 0 data Hn Hrun Hsrv Hslug).
    split; reflexivity.
  - intros Hrun. now rewrite (fetchLoop_exhausts srv ex 5 Hex 0 Hrun).
Qed.

Lemma exclusion_load_bounded_retry_witness :
  let result :=
    HomePage.fetchGame (excluding (Val "A")) (serving ["A"; "A"; "B"])
      (playing "A" 3 5 (Some "C4") ["C1"; "C2"; "C3"]) in
  snd result = [GetTodayGame; GetTodayGame; GetTodayGame]
  /\ HomePage.game (fst result) = Some (sessionOf "B" "C1" 0 5).
Proof.
  cbv zeta.
  assert (Hex : "A" <> "") by discriminate.
  destruct (exclusion_load_bounded_retry "A" (serving ["A"; "A"; "B"])
              (playing "A" 3 5 (Some "C4") ["C1"; "C2"; "C3"]) Hex)
    as (_ & _ & Haccept & _).
  assert (Hrun : excludedRun (serving ["A"; "A"; "B"]) "A" 0 2).
  { intros k Hk. exists (sessionOf "A" "C1" 0 5).
    destruct k as [|[|k]]; [split; reflexivity | split; reflexivity | lia]. }
  assert (Hslug : HomePage.movie_slug (sessionOf "B" "C1" 0 5) <> "A")
    by discriminate.
  destruct (Haccept 2%nat (sessionOf "B" "C1" 0 5) ltac:(lia) Hrun eq_refl
              Hslug) as [Hres Hgame].
  split; [|exact Hgame].
  unfold excluding. now rewrite Hres.
Defined.

(** The collaborator that always answers with the excluded slug: five
    attempts, then the message, and the session that was there stays. *)
Example always_excluded_five_attempts :
  HomePage.fetchGame (excluding (Val "A")) (always "A")
    (playing "A" 3 5 (Some "C4") ["C1"; "C2"; "C3"])
  = (HomePage.setStatusMessage (Some HomePage.msgNoDifferent)
       (playing "A" 3 5 (Some "C4") ["C1"; "C2"; "C3"]),
     repeat GetTodayGame 5).
Proof. reflexivity. Qed.

(** C4, as stated, fails: a failed fetch does not use up one attempt and
    let the loop go on.  With the first fetch failing and a different movie
    on offer afterwards, the load stops after that one fetch, with the
    message of a failed load rather than the one of no alternative found;
    with every fetch failing there is one attempt, not five. *)
Lemma failed_fetch_ends_exclusion_load :
  let s := playing "A" 3 5 (Some "C4") ["C1"; "C2"; "C3"] in
  let once := HomePage.fetchGame (excluding (Val "A")) (failingOnce "B") s in
  let never := HomePage.fetchGame (excluding (Val "A")) (fun _ => Rejected) s in
  snd once = [GetTodayGame]
  /\ HomePage.statusMessage (fst once) = Some HomePage.msgNewMovieFailed
  /\ HomePage.statusMessage (fst once) <> Some HomePage.msgNoDifferent
  /\ HomePage.game (fst once) = HomePage.game s
  /\ snd never = [GetTodayGame]
  /\ HomePage.statusMessage (fst never) <> Some HomePage.msgNoDifferent.
Proof.
  cbv zeta. repeat split; cbn; discriminate.
Qed.

(** C4 (amended).  During an exclusion load a fetch that fails (a rejected
    request or a response that is not ok) ends the load at once: after [n]
    answers with the excluded slug and a failure, [n + 1] fetches have been
    made and the message is that the new movie could not be loaded.  When
    all five attempts are answered with the excluded slug, the outcome is
    the message that no different movie was found.  Both outcomes are not
    fatal: the session is left as it was, the loading flag is cleared and
    only the status message is set. *)
Theorem exclusion_load_failure_outcomes :
  forall (ex : string) (srv : nat -> Response HomePage.TodayGameResponse)
         (s : HomePage.State),
    ex <> "" ->
    let result :=
      HomePage.fetchGame (Some (HomePage.mkFetchOptions (Some true) (Val ex)))
        srv s in
    (forall n,
        (n < 5)%nat ->
        excludedRun srv ex 0 n ->
        (forall d, srv n <> Ok200 d) ->
        result
        = (HomePage.setIsLoadingGame false
             (HomePage.setStatusMessage (Some HomePage.msgNewMovieFailed) s),
           repeat GetTodayGame (S n))
        /\ sameSession s (fst result))
    /\ (excludedRun srv ex 0 5 ->
        result
        = (HomePage.setIsLoadingGame false
             (HomePage.setStatusMessage (Some HomePage.msgNoDifferent) s),
           repeat GetTodayGame 5)
        /\ sameSession s (fst result)).
Proof.
  intros ex srv s Hex result. subst result.
  rewrite fetchGame_excluding. split.
  - intros n Hn Hrun Hfail.
    rewrite (fetchLoop_throws srv ex n Hex 5 0 Hn Hrun Hfail).
    split; [reflexivity | repeat split].
  - intros Hrun. rewrite (fetchLoop_exhausts srv ex 5 Hex 0 Hrun).
    split; [reflexivity | repeat split].
Qed.

Lemma exclusion_load_failure_outcomes_witness :
  let s := playing "A" 3 5 (Some "C4") ["C1"; "C2"; "C3"] in
  HomePage.fetchGame (excluding (Val "A")) (serving ["A"; "A"]) s
  = (HomePage.setStatusMessage (Some HomePage.msgNewMovieFailed) s,
     [GetTodayGame; GetTodayGame; GetTodayGame]).
Proof.
  cbv zeta.
  assert (Hex : "A" <> "") by discriminate.
  destruct (exclusion_load_failure_outcomes "A" (serving ["A"; "A"])
              (playing "A" 3 5 (Some "C4") ["C1"; "C2"; "C3"]) Hex)
    as [Hfail _].
  assert (Hrun : excludedRun (serving ["A"; "A"]) "A" 0 2).
  { intros k Hk. exists (sessionOf "A" "C1" 0 5).
    destruct k as [|[|k]]; [split; reflexivity | split; reflexivity | lia]. }
  assert (Hno : forall d, serving ["A"; "A"] 2 <> Ok200 d)
    by (intros d; discriminate).
  destruct (Hfail 2%nat ltac:(lia) Hrun Hno) as [Hres _].
  unfold excluding. rewrite Hres. reflexivity.
Defined.

(** C10.  A load that requires a different movie but whose slug to exclude
    is missing, null or the empty string makes no comparison of slugs: the
    first fetch, when it succeeds, is accepted at once, after a single
    request, also when its [movie_slug] is the slug of the session being
    played. *)
Theorem unchecked_different_load :
  forall (slug : JsOpt string)
         (srv : nat -> Response HomePage.TodayGameResponse)
         (s : HomePage.State) (data : HomePage.TodayGameResponse),
    slug = Undefined \/ slug = Null \/ slug = Val "" ->
    srv 0%nat = Ok200 data ->
    let result :=
      HomePage.fetchGame (Some (HomePage.mkFetchOptions (Some true) slug))
        srv s in
    result
    = (HomePage.setIsLoadingGame false (HomePage.installGame true data s),
       [GetTodayGame])
    /\ HomePage.game (fst result) = Some data.
Proof.
  intros slug srv s data Hslug Hsrv result. subst result.
  assert (Hfalsy :
            truthy (HomePage.excludeSlugOf
                      (Some (HomePage.mkFetchOptions (Some true) slug)))
            = false)
    by (destruct Hslug as [-> | [-> | ->]]; reflexivity).
  unfold HomePage.fetchGame.
  cbn [HomePage.requireDifferentOf HomePage.opt_requireDifferent
       HomePage.maxAttemptsOf negb].
  rewrite (fetchLoop_unchecked srv true _ 4 data Hfalsy Hsrv).
  split; reflexivity.
Qed.

Lemma unchecked_different_load_witness :
  let s := playing "" 3 5 (Some "C4") ["C1"; "C2"; "C3"] in
  let result := HomePage.fetchGame (HomePage.newMovieOptions s) (always "") s in
  snd result = [GetTodayGame]
  /\ option_map HomePage.movie_slug (HomePage.game (fst result)) = Some "".
Proof.
  cbv zeta.
  destruct (unchecked_different_load (Val "") (always "")
              (playing "" 3 5 (Some "C4") ["C1"; "C2"; "C3"])
              (sessionOf "" "C1" 0 5)
              (or_intror (or_intror eq_refl)) eq_refl) as [Hres Hgame].
  change (HomePage.newMovieOptions
            (playing "" 3 5 (Some "C4") ["C1"; "C2"; "C3"]))
    with (Some (HomePage.mkFetchOptions (Some true) (Val ""))).
  split.
  - now rewrite Hres.
  - now rewrite Hgame.
Defined.

(** ** Failures and the finished session *)

Section Failures.
Import HomePage.

(** A guess whose request fails: a message, and the input cleared. *)
Lemma handleSubmitGuess_failed (s : State) (g : TodayGameResponse)
    (srv : GuessBody -> Response GuessResponse) :
  game s = Some g ->
  finished s = false ->
  (forall d,
      srv (mkGuessBody (movie_slug g) (guess s) (currentClueIndex s))
      <> Ok200 d) ->
  handleSubmitGuess srv s
  = (setGuess "" (setStatusMessage (Some msgGuessFailed) s),
     [PostGuess (mkGuessBody (movie_slug g) (guess s) (currentClueIndex s))]).
Proof.
  intros Hg Hact Hfail. unfold handleSubmitGuess. rewrite Hg, Hact.
  destruct (srv (mkGuessBody (movie_slug g) (guess s) (currentClueIndex s)))
    as [d| |]; [now destruct (Hfail d) | reflexivity | reflexivity].
Qed.




End Failures.

(** C7.  Failures are not fatal and leave the game state whole.  A "new
    movie" reload (and likewise the load on mount) that installs no game,
    because a fetch failed or because the attempts ran out, leaves [game], [currentClueIndex],
    [currentClueText], [previousClues], [finished], [revealedTitle] and
    [posterUrl] as they were and sets a status message; the guess input is
    untouched and the loading flag ends cleared, so that from a state that
    is not loading nothing but the message changes.  A guess submission
    whose request fails leaves [currentClueIndex], [currentClueText],
    [previousClues] and [finished] (and the rest of the session) as they
    were, sets the status message and clears the guess input, and nothing
    else. *)
Theorem failures_leave_session_intact :
  (forall (s : HomePage.State) (a : HomePage.Action)
          (srv : nat -> Response HomePage.TodayGameResponse),
      a = HomePage.NewMovie srv \/ a = HomePage.Mount srv ->
      HomePage.loadsSession s a = false ->
      let s' := fst (HomePage.step s a) in
      sameSession s s'
      /\ HomePage.guess s' = HomePage.guess s
      /\ HomePage.isLoadingGame s' = false
      /\ (exists msg,
             HomePage.statusMessage s' = Some msg
             /\ (HomePage.isLoadingGame s = false ->
                 s' = HomePage.setStatusMessage (Some msg) s)))
  /\ (forall (s : HomePage.State) (g : HomePage.TodayGameResponse)
             (srv : GuessBody -> Response GuessResponse),
         HomePage.game s = Some g ->
         HomePage.finished s = false ->
         (forall d,
             srv (mkGuessBody (HomePage.movie_slug g) (HomePage.guess s)
                    (HomePage.currentClueIndex s)) <> Ok200 d) ->
         let s' := fst (HomePage.handleSubmitGuess srv s) in
         sameProgress s s'
         /\ sameSession s s'
         /\ HomePage.statusMessage s' = Some HomePage.msgGuessFailed
         /\ HomePage.guess s' = ""
         /\ s' = HomePage.setGuess ""
                   (HomePage.setStatusMessage (Some HomePage.msgGuessFailed)
                      s)).
Proof.
  split.
  - intros s a srv Ha Hload s'. subst s'.
    assert (Hmsg : exists msg,
               fst (HomePage.step s a)
               = HomePage.setIsLoadingGame false
                   (HomePage.setStatusMessage (Some msg) s)).
    { destruct Ha as [-> | ->]; cbn [HomePage.step].
      - destruct (fetchGame_nothing_installed srv s
                    (HomePage.newMovieOptions s)
                    (loadsSession_false_NewMovie srv s Hload))
          as (msg & _ & Heq).
        now exists msg.
      - destruct (fetchGame_nothing_installed srv s None
                    (loadsSession_false_Mount srv s Hload))
          as (msg & _ & Heq).
        now exists msg. }
    destruct Hmsg as (msg & ->).
    split; [repeat split|]. split; [reflexivity|]. split; [reflexivity|].
    exists msg. split; [reflexivity|].
    intros Hidle. destruct s; cbn in *. now subst.
  - intros s g srv Hg Hact Hfail s'. subst s'.
    rewrite (handleSubmitGuess_failed s g srv Hg Hact Hfail). cbn [fst].
    repeat split.
Qed.

Lemma failures_leave_session_intact_witness :
  let s := playing "A" 3 5 (Some "C4") ["C1"; "C2"; "C3"] in
  fst (HomePage.step s (HomePage.NewMovie (always "A")))
  = HomePage.setStatusMessage (Some HomePage.msgNoDifferent) s
  /\ fst (HomePage.handleSubmitGuess (fun _ => NotOk)
            (HomePage.setGuess "Heat" s))
     = HomePage.setStatusMessage (Some HomePage.msgGuessFailed) s.
Proof.
  cbv zeta. split.
  - destruct (proj1 failures_leave_session_intact
                (playing "A" 3 5 (Some "C4") ["C1"; "C2"; "C3"])
                (HomePage.NewMovie (always "A")) (always "A")
                (or_introl eq_refl) eq_refl)
      as (_ & _ & _ & msg & Hmsg & Hidle).
    rewrite (Hidle eq_refl). f_equal.
    rewrite <- Hmsg. reflexivity.
  - destruct (proj2 failures_leave_session_intact
                (HomePage.setGuess "Heat"
                   (playing "A" 3 5 (Some "C4") ["C1"; "C2"; "C3"]))
                (sessionOf "A" "C1" 0 5) (fun _ => NotOk) eq_refl eq_refl
                ltac:(intros d; discriminate))
      as (_ & _ & _ & _ & Heq).
    rewrite Heq. reflexivity.
Defined.



(** ** The clue history *)

Section History.
Import HomePage.

(** A load that finds a game starts a session with an empty history. *)
Lemma fetchGame_found (options : option FetchOptions)
    (srv : nat -> Response TodayGameResponse) (prev : State)
    (g : TodayGameResponse) :
  fst (fetchLoop (requireDifferentOf options) (excludeSlugOf options) srv
         (maxAttemptsOf (requireDifferentOf options)) 0) = Found g ->
  let s0 := fst (fetchGame options srv prev) in
  game s0 = Some g
  /\ currentClueIndex s0 = current_clue_index g
  /\ currentClueText s0 = Some (current_clue_text g)
  /\ previousClues s0 = []
  /\ finished s0 = false.
Proof.
  intros Hfound. unfold fetchGame.
  destruct (fetchLoop (requireDifferentOf options) (excludeSlugOf options)
              srv (maxAttemptsOf (requireDifferentOf options)) 0)
    as [exit log].
  cbn [fst] in Hfound. subst exit.
  destruct (requireDifferentOf options); repeat split.
Qed.

Lemma submitAll_cons (s : State) (data : GuessResponse)
    (rest : list GuessResponse) :
  submitAll s (data :: rest) = submitAll (submit data s) rest.
Proof. reflexivity. Qed.

(** What one answered guess does to the index and the history. *)
Lemma submit_cases (data : GuessResponse) (s : State) :
  (game s = None \/ finished s = true) /\ submit data s = s
  \/ (finished s = false
      /\ correct data || verdict_finished data = true
      /\ finished (submit data s) = true
      /\ currentClueIndex (submit data s) = currentClueIndex s
      /\ previousClues (submit data s) = previousClues s)
  \/ (finished s = false
      /\ correct data || verdict_finished data = false
      /\ finished (submit data s) = false
      /\ game (submit data s) = game s
      /\ currentClueIndex (submit data s) = next_clue_index data
      /\ currentClueText (submit data s) = next_clue_text data
      /\ previousClues (submit data s)
         = match currentClueText s with
           | Some text =>
               if truthy (Some text) then (previousClues s ++ [text])%list
               else previousClues s
           | None => previousClues s
           end).
Proof.
  unfold submit.
  destruct (game s) as [g|] eqn:Hg.
  2:{ left. unfold handleSubmitGuess. rewrite Hg. auto. }
  destruct (finished s) eqn:Hfin.
  { left. unfold handleSubmitGuess. rewrite Hg, Hfin. auto. }
  right.
  destruct (correct data || verdict_finished data) eqn:Hv.
  - left.
    destruct (verdict_finishing s g (fun _ => Ok200 data) data Hg Hfin
                eq_refl Hv) as (Hf & _ & Hp & Hi & _).
    auto.
  - right.
    destruct (verdict_advancing s g (fun _ => Ok200 data) data Hg Hfin
                eq_refl Hv) as (Hf & _ & Hi & Hc & Hp).
    repeat split; try assumption.
    rewrite (handleSubmitGuess_verdict s g (fun _ => Ok200 data) data Hg Hfin
               eq_refl).
    cbn [fst]. unfold applyVerdict. rewrite Hv. cbn. exact Hg.
Qed.

(** The number of recorded clues follows the index as long as the
    collaborator counts in step. *)
Lemma history_length_invariant (verdicts : list GuessResponse) :
  forall s,
    Z.of_nat (List.length (previousClues s)) = currentClueIndex s ->
    inStep s verdicts = true ->
    Z.of_nat (List.length (previousClues (submitAll s verdicts)))
    = currentClueIndex (submitAll s verdicts).
Proof.
  induction verdicts as [|data rest IH]; intros s Hinv Hstep.
  - exact Hinv.
  - rewrite submitAll_cons.
    unfold inStep in Hstep. cbn [eachGuess] in Hstep.
    apply andb_true_iff in Hstep. destruct Hstep as [Hhere Hrest].
    apply IH; [|exact Hrest].
    destruct (submit_cases data s)
      as [[_ ->] | [(_ & _ & _ & Hi & Hp)
                   | (Hact & Hv & _ & _ & Hi & _ & Hp)]].
    + exact Hinv.
    + now rewrite Hi, Hp.
    + rewrite Hact, Hv in Hhere. cbn [orb] in Hhere.
      apply andb_true_iff in Hhere. destruct Hhere as [Hnext Htext].
      apply Z.eqb_eq in Hnext.
      rewrite Hi, Hp, Hnext.
      destruct (currentClueText s) as [text|]; [|discriminate].
      rewrite Htext, length_app. cbn [List.length]. lia.
Qed.

(** A run of guesses that all move on from a clue with a text records
    those clues, in order, behind what was recorded before. *)
Lemma history_of_advancing_guesses (verdicts : list GuessResponse) :
  forall s,
    game s <> None ->
    finished s = false ->
    advancingFromClues s verdicts = true ->
    List.length (previousClues (submitAll s verdicts))
    = (List.length (previousClues s) + List.length verdicts)%nat
    /\ (forall k,
           (k < List.length (previousClues s))%nat ->
           nth_error (previousClues (submitAll s verdicts)) k
           = nth_error (previousClues s) k)
    /\ (forall k,
           (k < List.length verdicts)%nat ->
           nth_error (previousClues (submitAll s verdicts))
             (List.length (previousClues s) + k)
           = currentClueText (submitAll s (firstn k verdicts))).
Proof.
  induction verdicts as [|data rest IH]; intros s Hgame Hact Hadv.
  - cbn. split; [lia|]. split; [reflexivity|]. intros k Hk. lia.
  - unfold advancingFromClues in Hadv. cbn [eachGuess] in Hadv.
    apply andb_true_iff in Hadv. destruct Hadv as [Hhere Hrest].
    apply andb_true_iff in Hhere. destruct Hhere as [Hv Htext].
    apply negb_true_iff in Hv.
    destruct (submit_cases data s)
      as [[[Hnone | Hfin] _] | [(_ & Hv' & _)
                                | (_ & _ & Hf & Hg & _ & _ & Hp)]];
      try congruence.
    destruct (currentClueText s) as [text|] eqn:Hcur; [|discriminate].
    rewrite Htext in Hp.
    assert (Hgame' : game (submit data s) <> None) by now rewrite Hg.
    destruct (IH (submit data s) Hgame' Hf Hrest) as (Hlen & Hold & Hnew).
    rewrite submitAll_cons. rewrite Hp in Hlen, Hold, Hnew.
    rewrite length_app in Hlen, Hold, Hnew. cbn [List.length] in *.
    split; [lia|]. split.
    + intros k Hk. rewrite Hold by lia.
      now rewrite nth_error_app1.
    + intros [|k] Hk.
      * rewrite Nat.add_0_r, Hold by lia.
        rewrite nth_error_app2, Nat.sub_diag by lia. cbn. now rewrite Hcur.
      * cbn [firstn]. rewrite submitAll_cons.
        replace (List.length (previousClues s) + S k)%nat
          with (List.length (previousClues s) + 1 + k)%nat by lia.
        apply Hnew. lia.
Qed.

End History.

(** C3, as stated, fails.  After a load at index 0 with clue "C1", a wrong
    guess whose verdict carries no next clue text and a second wrong guess
    leave two guesses made, the index at 2 and one recorded clue; and a load
    that reports a session already at index 2 starts with an empty history. *)
Lemma history_can_fall_behind_index :
  let load (g : HomePage.TodayGameResponse) :=
    fst (HomePage.fetchGame None (fun _ => Ok200 g) HomePage.initialState) in
  let verdicts := [wrongGuess 1 None; wrongGuess 2 (Some "C3")] in
  let s := HomePage.submitAll (load (sessionOf "x" "C1" 0 5)) verdicts in
  let resumed := load (sessionOf "x" "C3" 2 5) in
  forallb (fun d => negb (correct d || verdict_finished d)) verdicts = true
  /\ HomePage.currentClueIndex s = 2
  /\ HomePage.previousClues s = ["C1"]
  /\ Z.of_nat (List.length (HomePage.previousClues s))
     <> HomePage.currentClueIndex s
  /\ List.length (HomePage.previousClues s) <> List.length verdicts
  /\ HomePage.previousClues resumed = []
  /\ Z.of_nat (List.length (HomePage.previousClues resumed))
     <> HomePage.currentClueIndex resumed.
Proof.
  cbv zeta. repeat split; cbn; discriminate.
Qed.

(** C3 (amended).  Take a session installed by a load and not reloaded
    since.  If the load reported index 0 then, after any sequence of
    answered guess submissions in which every verdict that moves the active
    session on reports the index after the current one and moves on from a
    clue text that is neither null nor empty, the length of [previousClues]
    equals [currentClueIndex].  After N consecutive guesses whose verdicts
    all move on, each from a clue text that is neither null nor empty,
    [previousClues] has exactly N entries, and the k-th is the clue text
    that was current just before the k-th guess. *)
Theorem history_tracks_clues :
  forall (options : option HomePage.FetchOptions)
         (srv : nat -> Response HomePage.TodayGameResponse)
         (prev : HomePage.State) (g : HomePage.TodayGameResponse)
         (verdicts : list GuessResponse),
    fst (HomePage.fetchLoop (HomePage.requireDifferentOf options)
           (HomePage.excludeSlugOf options) srv
           (HomePage.maxAttemptsOf (HomePage.requireDifferentOf options)) 0)
    = HomePage.Found g ->
    let s0 := fst (HomePage.fetchGame options srv prev) in
    let s := HomePage.submitAll s0 verdicts in
    (HomePage.current_clue_index g = 0 ->
     inStep s0 verdicts = true ->
     Z.of_nat (List.length (HomePage.previousClues s))
     = HomePage.currentClueIndex s)
    /\ (advancingFromClues s0 verdicts = true ->
        List.length (HomePage.previousClues s) = List.length verdicts
        /\ forall k,
            (k < List.length verdicts)%nat ->
            nth_error (HomePage.previousClues s) k
            = HomePage.currentClueText
                (HomePage.submitAll s0 (firstn k verdicts))).
Proof.
  intros options srv prev g verdicts Hfound s0 s.
  destruct (fetchGame_found options srv prev g Hfound)
    as (Hg & Hi & _ & Hp & Hf).
  fold s0 in Hg, Hi, Hp, Hf.
  split.
  - intros Hzero Hstep. subst s.
    apply history_length_invariant; [|exact Hstep].
    now rewrite Hp, Hi, Hzero.
  - intros Hadv.
    assert (Hgame : HomePage.game s0 <> None) by now rewrite Hg.
    destruct (history_of_advancing_guesses verdicts s0 Hgame Hf Hadv)
      as (Hlen & _ & Hnew).
    rewrite Hp in Hlen, Hnew. cbn [List.length Nat.add] in Hlen, Hnew.
    split; [exact Hlen | exact Hnew].
Qed.

Lemma history_tracks_clues_witness :
  let s0 :=
    fst (HomePage.fetchGame None (always "x") HomePage.initialState) in
  let verdicts :=
    [wrongGuess 1 (Some "C2"); wrongGuess 2 (Some "C3");
     rightGuess (Some "Movie X")] in
  Z.of_nat (List.length (HomePage.previousClues
                           (HomePage.submitAll s0 verdicts)))
  = HomePage.currentClueIndex (HomePage.submitAll s0 verdicts)
  /\ nth_error (HomePage.previousClues
                  (HomePage.submitAll s0 (firstn 2 verdicts))) 1
     = Some "C2".
Proof.
  cbv zeta.
  pose (verdicts :=
          [wrongGuess 1 (Some "C2"); wrongGuess 2 (Some "C3");
           rightGuess (Some "Movie X")]).
  split.
  - exact (proj1 (history_tracks_clues None (always "x")
                     HomePage.initialState (sessionOf "x" "C1" 0 5) verdicts
                     eq_refl)
             eq_refl eq_refl).
  - destruct (proj2 (history_tracks_clues None (always "x")
                       HomePage.initialState (sessionOf "x" "C1" 0 5)
                       (firstn 2 verdicts) eq_refl)
                eq_refl) as [_ Hkth].
    exact (Hkth 1%nat ltac:(cbn; lia)).
Defined.

(** ** Rounding to the nearest double *)

Section Pow2.
Open Scope Q_scope.

Lemma pow2_pos (e : Z) : 0 < pow2 e.
Proof. apply Qpower_0_lt. reflexivity. Qed.

Lemma pow2_le (a b : Z) : (a <= b)%Z -> pow2 a <= pow2 b.
Proof. intros H. apply Qpower_le_compat_l; [exact H | discriminate]. Qed.

Lemma pow2_lt (a b : Z) : (a < b)%Z -> pow2 a < pow2 b.
Proof. intros H. apply Qpower_lt_compat_l; [exact H | reflexivity]. Qed.

Lemma pow2_lt_inv (a b : Z) : pow2 a < pow2 b -> (a < b)%Z.
Proof. intros H. apply (Qpower_lt_compat_l_inv 2); [exact H | reflexivity]. Qed.

Lemma pow2_add (a b : Z) : pow2 (a + b) == pow2 a * pow2 b.
Proof. apply Qpower_plus. discriminate. Qed.

Lemma pow2_cancel (a : Z) : pow2 (- a) * pow2 a == 1.
Proof. rewrite <- pow2_add. replace (- a + a)%Z with 0%Z by lia. reflexivity. Qed.

Lemma pow2_Z (a : Z) : (0 <= a)%Z -> pow2 a == inject_Z (2 ^ a).
Proof. intros H. unfold pow2. now rewrite Zpower_Qpower. Qed.

End Pow2.

Section Mag.
Open Scope Q_scope.

Lemma Qdiv_lt_cross (a b c d : Q) :
  0 < b -> 0 < d -> a * d < c * b -> a / b < c / d.
Proof.
  intros Hb Hd H. apply Qlt_shift_div_r; [exact Hb|].
  assert (E : c / d * b == c * b / d) by (field; lra).
  rewrite E. apply Qlt_shift_div_l; [exact Hd | exact H].
Qed.

Lemma Qdiv_le_cross (a b c d : Q) :
  0 < b -> 0 < d -> a * d <= c * b -> a / b <= c / d.
Proof.
  intros Hb Hd H. apply Qle_shift_div_r; [exact Hb|].
  assert (E : c / d * b == c * b / d) by (field; lra).
  rewrite E. apply Qle_shift_div_l; [exact Hd | exact H].
Qed.

Lemma Qabs_as_div (x : Q) :
  Qabs x == inject_Z (Z.abs (Qnum x)) / inject_Z (Z.pos (Qden x)).
Proof. destruct x as [n d]. cbn [Qabs Qnum Qden]. apply Qmake_Qdiv. Qed.

Lemma log2_bounds (n : Z) :
  (0 < n)%Z ->
  pow2 (Z.log2 n) <= inject_Z n /\ inject_Z n < 2 * pow2 (Z.log2 n).
Proof.
  intros Hn. destruct (Z.log2_spec n Hn) as [Hlo Hhi].
  pose proof (Z.log2_nonneg n) as Hnn.
  rewrite pow2_Z by exact Hnn. split.
  - now rewrite <- Zle_Qle.
  - assert (E : 2 * inject_Z (2 ^ Z.log2 n) == inject_Z (2 ^ Z.succ (Z.log2 n))).
    { rewrite Z.pow_succ_r by exact Hnn. rewrite inject_Z_mult. reflexivity. }
    rewrite E. now rewrite <- Zlt_Qlt.
Qed.

Lemma pow2_succ (e : Z) : pow2 (e + 1) == 2 * pow2 e.
Proof. rewrite pow2_add. change (pow2 1) with 2. ring. Qed.

Lemma pow2_pred (e : Z) : pow2 (e - 1) == pow2 e / 2.
Proof.
  assert (E : pow2 e == 2 * pow2 (e - 1)).
  { rewrite <- pow2_succ. now replace (e - 1 + 1)%Z with e by lia. }
  rewrite E. field.
Qed.

Lemma pow2_sub (a b : Z) : pow2 (a - b) == pow2 a / pow2 b.
Proof.
  unfold Z.sub. rewrite pow2_add.
  assert (E : pow2 (- b) == / pow2 b) by apply Qpower_opp.
  rewrite E. reflexivity.
Qed.

Lemma mag_spec (x : Q) :
  ~ x == 0 -> pow2 (mag x - 1) <= Qabs x /\ Qabs x < pow2 (mag x).
Proof.
  intros Hx. unfold mag.
  set (n := Z.abs (Qnum x)). set (d := Z.pos (Qden x)).
  assert (Hn : (0 < n)%Z).
  { subst n. destruct x as [[|p|p] q]; cbn; try lia.
    exfalso. apply Hx. reflexivity. }
  assert (Hd : (0 < d)%Z) by (subst d; lia).
  destruct (log2_bounds n Hn) as [Hn1 Hn2].
  destruct (log2_bounds d Hd) as [Hd1 Hd2].
  pose proof (pow2_pos (Z.log2 n)) as Hpa.
  pose proof (pow2_pos (Z.log2 d)) as Hpb.
  assert (HD : 0 < inject_Z d) by lra.
  assert (Habs : Qabs x == inject_Z n / inject_Z d) by apply Qabs_as_div.
  set (e := (Z.log2 n - Z.log2 d)%Z).
  assert (He : pow2 e == pow2 (Z.log2 n) / pow2 (Z.log2 d)) by apply pow2_sub.
  destruct (Qle_bool (pow2 e) (Qabs x)) eqn:Hcmp.
  - apply Qle_bool_iff in Hcmp.
    replace (e + 1 - 1)%Z with e by lia. split; [exact Hcmp|].
    rewrite pow2_succ, He, Habs.
    assert (E : 2 * (pow2 (Z.log2 n) / pow2 (Z.log2 d))
                == (2 * pow2 (Z.log2 n)) / pow2 (Z.log2 d)) by (field; lra).
    rewrite E. apply Qdiv_lt_cross; [exact HD | exact Hpb |]. nra.
  - assert (Hlt : Qabs x < pow2 e).
    { destruct (Qlt_le_dec (Qabs x) (pow2 e)) as [H|H]; [exact H|].
      apply Qle_bool_iff in H. congruence. }
    split; [|exact Hlt].
    rewrite pow2_pred, He, Habs.
    assert (E : pow2 (Z.log2 n) / pow2 (Z.log2 d) / 2
                == pow2 (Z.log2 n) / (2 * pow2 (Z.log2 d))) by (field; lra).
    rewrite E. apply Qdiv_le_cross; [lra | exact HD |]. nra.
Qed.

Lemma mag_unique (x : Q) (e : Z) :
  pow2 (e - 1) <= Qabs x -> Qabs x < pow2 e -> mag x = e.
Proof.
  intros Hlo Hhi.
  assert (Hx : ~ x == 0).
  { intros E. rewrite E in Hlo. cbn in Hlo.
    pose proof (pow2_pos (e - 1)). 
    assert (Qabs 0 == 0) by reflexivity. lra. }
  destruct (mag_spec x Hx) as [Hlo' Hhi'].
  assert (H1 : (e - 1 < mag x)%Z) by (apply pow2_lt_inv; lra).
  assert (H2 : (mag x - 1 < e)%Z) by (apply pow2_lt_inv; lra).
  lia.
Qed.

Lemma mag_comp (x y : Q) : ~ x == 0 -> x == y -> mag x = mag y.
Proof.
  intros Hx E. symmetry. destruct (mag_spec x Hx) as [Hlo Hhi].
  apply mag_unique; now rewrite <- E.
Qed.

Lemma mag_le (x y : Q) : 0 < x -> x <= y -> (mag x <= mag y)%Z.
Proof.
  intros Hx Hxy.
  assert (Hx0 : ~ x == 0) by lra. assert (Hy0 : ~ y == 0) by lra.
  destruct (mag_spec x Hx0) as [Hlo _]. destruct (mag_spec y Hy0) as [_ Hhi].
  rewrite Qabs_pos in Hlo, Hhi by lra.
  assert (H : (mag x - 1 < mag y)%Z) by (apply pow2_lt_inv; lra).
  lia.
Qed.

End Mag.

Section HalfEven.
Open Scope Q_scope.

Lemma round_half_even_spec (y : Q) :
  let f := Qfloor y in
  (y - inject_Z f < 1 # 2 /\ round_half_even y = f)
  \/ (1 # 2 < y - inject_Z f /\ round_half_even y = (f + 1)%Z)
  \/ (y - inject_Z f == 1 # 2
      /\ round_half_even y = if Z.even f then f else (f + 1)%Z).
Proof.
  intros f. unfold round_half_even. fold f.
  destruct (y - inject_Z f ?= 1 # 2) eqn:Hcmp.
  - right. right. split; [now apply Qeq_alt | reflexivity].
  - left. split; [now apply Qlt_alt | reflexivity].
  - right. left. split; [now apply Qgt_alt | reflexivity].
Qed.

Lemma floor_bounds (y : Q) :
  inject_Z (Qfloor y) <= y /\ y < inject_Z (Qfloor y) + 1.
Proof.
  split; [apply Qfloor_le|].
  pose proof (Qlt_floor y) as H. rewrite inject_Z_plus in H. exact H.
Qed.

Lemma round_half_even_error (y : Q) :
  Qabs (inject_Z (round_half_even y) - y) <= 1 # 2.
Proof.
  destruct (floor_bounds y) as [Hlo Hhi].
  apply Qabs_Qle_condition.
  destruct (round_half_even_spec y) as [[Hr ->] | [[Hr ->] | [Hr ->]]].
  - split; lra.
  - rewrite inject_Z_plus. change (inject_Z 1) with 1. split; lra.
  - destruct (Z.even (Qfloor y)).
    + split; lra.
    + rewrite inject_Z_plus. change (inject_Z 1) with 1. split; lra.
Qed.

Lemma round_half_even_range (y : Q) :
  (Qfloor y <= round_half_even y <= Qfloor y + 1)%Z.
Proof.
  destruct (round_half_even_spec y) as [[_ ->] | [[_ ->] | [_ ->]]];
    try lia.
  destruct (Z.even (Qfloor y)); lia.
Qed.

Lemma round_half_even_mono (y y' : Q) :
  y <= y' -> (round_half_even y <= round_half_even y')%Z.
Proof.
  intros Hyy'.
  pose proof (Qfloor_resp_le y y' Hyy') as Hfloor.
  pose proof (round_half_even_range y) as Hr.
  pose proof (round_half_even_range y') as Hr'.
  destruct (Z.eq_dec (Qfloor y) (Qfloor y')) as [Heq | Hne]; [|lia].
  destruct (round_half_even_spec y) as [[Hc E] | [[Hc E] | [Hc E]]];
    destruct (round_half_even_spec y') as [[Hc' E'] | [[Hc' E'] | [Hc' E']]];
    rewrite E, E'; rewrite <- Heq in *;
    try (destruct (Z.even (Qfloor y)); lia); try lia; exfalso; lra.
Qed.

Lemma round_half_even_Z (z : Z) : round_half_even (inject_Z z) = z.
Proof.
  destruct (round_half_even_spec (inject_Z z)) as [[_ E] | [[Hc _] | [Hc _]]];
    rewrite Qfloor_Z in *.
  - exact E.
  - exfalso. lra.
  - exfalso. lra.
Qed.

Lemma round_half_even_comp (y y' : Q) :
  y == y' -> round_half_even y = round_half_even y'.
Proof.
  intros E. unfold round_half_even.
  rewrite (Qfloor_comp y y' E).
  assert (Hc : (y - inject_Z (Qfloor y') ?= 1 # 2)
               = (y' - inject_Z (Qfloor y') ?= 1 # 2))
    by now rewrite E.
  now rewrite Hc.
Qed.

End HalfEven.

Section Rne.
Open Scope Q_scope.

Lemma rne_zero (x : Q) : x == 0 -> rne x == 0.
Proof.
  intros E. unfold rne. apply Qeq_bool_iff in E. now rewrite E.
Qed.

Lemma rne_nonzero (x : Q) :
  ~ x == 0 ->
  rne x = inject_Z (round_half_even (x * pow2 (- cexp x))) * pow2 (cexp x).
Proof.
  intros Hx. unfold rne.
  destruct (Qeq_bool x 0) eqn:E; [|reflexivity].
  apply Qeq_bool_iff in E. now destruct Hx.
Qed.

Lemma cexp_comp (x y : Q) : ~ x == 0 -> x == y -> cexp x = cexp y.
Proof. intros Hx E. unfold cexp. now rewrite (mag_comp x y Hx E). Qed.

Lemma rne_comp (x y : Q) : x == y -> rne x == rne y.
Proof.
  intros E. destruct (Qeq_dec x 0) as [Hx | Hx].
  - rewrite (rne_zero x Hx). rewrite E in Hx. now rewrite (rne_zero y Hx).
  - assert (Hy : ~ y == 0) by now rewrite <- E.
    rewrite (rne_nonzero x Hx), (rne_nonzero y Hy).
    rewrite <- (cexp_comp x y Hx E).
    rewrite (round_half_even_comp (x * pow2 (- cexp x))
               (y * pow2 (- cexp x)))
      by (apply Qmult_comp; [exact E | reflexivity]).
    reflexivity.
Qed.

#[global] Instance rne_Proper : Proper (Qeq ==> Qeq) rne.
Proof. intros x y E. now apply rne_comp. Qed.

(** Half a unit in the last place. *)
Lemma rne_error (x : Q) :
  ~ x == 0 -> Qabs (rne x - x) <= (1 # 2) * pow2 (cexp x).
Proof.
  intros Hx. rewrite (rne_nonzero x Hx).
  set (c := cexp x).
  pose proof (pow2_pos c) as Hc.
  pose proof (round_half_even_error (x * pow2 (- c))) as Herr.
  apply Qabs_Qle_condition in Herr. destruct Herr as [Hlo Hhi].
  pose proof (pow2_cancel c) as Hcancel.
  apply Qabs_Qle_condition.
  set (m := inject_Z (round_half_even (x * pow2 (- c)))) in *.
  assert (Hx' : x == x * pow2 (- c) * pow2 c).
  { rewrite <- Qmult_assoc, Hcancel. ring. }
  set (y := x * pow2 (- c)) in *.
  assert (Hd : m * pow2 c - x == (m - y) * pow2 c).
  { transitivity (m * pow2 c - y * pow2 c); [|ring].
    apply Qplus_comp; [reflexivity|]. apply Qopp_comp. exact Hx'. }
  rewrite Hd.
  assert (Hup : (m - y) * pow2 c <= (1 # 2) * pow2 c)
    by (apply Qmult_le_compat_r; lra).
  assert (Hdown : - (1 # 2) * pow2 c <= (m - y) * pow2 c)
    by (apply Qmult_le_compat_r; lra).
  split; lra.
Qed.

End Rne.

Section RneOrder.
Open Scope Q_scope.

Lemma rne_scaled_le (x : Q) (k : Z) :
  ~ x == 0 ->
  x <= inject_Z k * pow2 (cexp x) -> rne x <= inject_Z k * pow2 (cexp x).
Proof.
  intros Hx Hle. rewrite (rne_nonzero x Hx).
  pose proof (pow2_pos (cexp x)) as Hc.
  pose proof (pow2_pos (- cexp x)) as Hc'.
  pose proof (pow2_cancel (cexp x)) as Hcancel.
  apply Qmult_le_compat_r; [|lra].
  rewrite <- Zle_Qle. rewrite <- (round_half_even_Z k).
  apply round_half_even_mono.
  assert (E : inject_Z k == inject_Z k * pow2 (cexp x) * pow2 (- cexp x)).
  { rewrite <- Qmult_assoc, (Qmult_comm (pow2 (cexp x))), Hcancel. ring. }
  rewrite E. apply Qmult_le_compat_r; lra.
Qed.

Lemma rne_scaled_ge (x : Q) (k : Z) :
  ~ x == 0 ->
  inject_Z k * pow2 (cexp x) <= x -> inject_Z k * pow2 (cexp x) <= rne x.
Proof.
  intros Hx Hle. rewrite (rne_nonzero x Hx).
  pose proof (pow2_pos (cexp x)) as Hc.
  pose proof (pow2_pos (- cexp x)) as Hc'.
  pose proof (pow2_cancel (cexp x)) as Hcancel.
  apply Qmult_le_compat_r; [|lra].
  rewrite <- Zle_Qle. rewrite <- (round_half_even_Z k) at 1.
  apply round_half_even_mono.
  assert (E : inject_Z k == inject_Z k * pow2 (cexp x) * pow2 (- cexp x)).
  { rewrite <- Qmult_assoc, (Qmult_comm (pow2 (cexp x))), Hcancel. ring. }
  rewrite E. apply Qmult_le_compat_r; lra.
Qed.

Lemma rne_nonneg (x : Q) : 0 <= x -> 0 <= rne x.
Proof.
  intros Hx. destruct (Qeq_dec x 0) as [E | Hne].
  - rewrite (rne_zero x E). lra.
  - pose proof (rne_scaled_ge x 0 Hne) as H.
    change (inject_Z 0) with 0 in H. rewrite Qmult_0_l in H. now apply H.
Qed.

Lemma rne_mono (x y : Q) : 0 <= x -> x <= y -> rne x <= rne y.
Proof.
  intros Hx Hxy.
  destruct (Qeq_dec x 0) as [E | Hx0].
  { rewrite (rne_zero x E). apply rne_nonneg. lra. }
  assert (Hy0 : ~ y == 0) by lra.
  assert (Hxpos : 0 < x) by lra.
  pose proof (mag_le x y Hxpos Hxy) as Hmag.
  destruct (mag_spec x Hx0) as [_ Hxhi].
  destruct (mag_spec y Hy0) as [Hylo _].
  rewrite Qabs_pos in Hxhi, Hylo by lra.
  destruct (Z.eq_dec (cexp x) (cexp y)) as [Hc | Hc].
  - rewrite (rne_nonzero x Hx0), (rne_nonzero y Hy0), <- Hc.
    pose proof (pow2_pos (cexp x)) as Hp.
    pose proof (pow2_pos (- cexp x)) as Hp'.
    apply Qmult_le_compat_r; [|lra].
    rewrite <- Zle_Qle. apply round_half_even_mono.
    apply Qmult_le_compat_r; lra.
  - assert (Hlt : (cexp x < cexp y)%Z) by (unfold cexp in *; lia).
    assert (Hcy : cexp y = (mag y - 53)%Z) by (unfold cexp in *; lia).
    set (M := Z.max (mag x) (cexp x)).
    assert (HM : (M <= mag y - 1)%Z) by (unfold cexp in *; lia).
    assert (Hupper : rne x <= pow2 M).
    { assert (E : pow2 M == inject_Z (2 ^ (M - cexp x)) * pow2 (cexp x)).
      { rewrite <- pow2_Z by lia. rewrite <- pow2_add.
        now replace (M - cexp x + cexp x)%Z with M by lia. }
      rewrite E. apply rne_scaled_le; [exact Hx0|]. rewrite <- E.
      apply Qle_trans with (pow2 (mag x)); [lra|]. apply pow2_le. lia. }
    assert (Hlower : pow2 (mag y - 1) <= rne y).
    { assert (E : pow2 (mag y - 1) == inject_Z (2 ^ 52) * pow2 (cexp y)).
      { rewrite <- pow2_Z by lia. rewrite <- pow2_add.
        now replace (52 + cexp y)%Z with (mag y - 1)%Z by lia. }
      rewrite E. apply rne_scaled_ge; [exact Hy0|]. now rewrite <- E. }
    pose proof (pow2_le M (mag y - 1) HM). lra.
Qed.

(** Integers of magnitude below [2^53] are doubles. *)
Lemma rne_int (z : Z) : (0 <= z < 2 ^ 53)%Z -> rne (inject_Z z) == inject_Z z.
Proof.
  intros [Hlo Hhi].
  destruct (Z.eq_dec z 0) as [-> | Hz]; [reflexivity|].
  assert (Hx0 : ~ inject_Z z == 0).
  { unfold Qeq. cbn. lia. }
  destruct (mag_spec (inject_Z z) Hx0) as [Hmlo Hmhi].
  assert (Hzpos : 0 < inject_Z z) by (unfold Qlt; cbn; lia).
  rewrite Qabs_pos in Hmlo, Hmhi by lra.
  assert (Hmag : (mag (inject_Z z) <= 53)%Z).
  { assert (H : (mag (inject_Z z) - 1 < 53)%Z); [|lia].
    apply pow2_lt_inv. apply Qle_lt_trans with (inject_Z z); [exact Hmlo|].
    rewrite pow2_Z by lia. now rewrite <- Zlt_Qlt. }
  set (c := cexp (inject_Z z)).
  assert (Hc : (c <= 0)%Z) by (subst c; unfold cexp; lia).
  rewrite (rne_nonzero _ Hx0). fold c.
  assert (E : inject_Z z * pow2 (- c) == inject_Z (z * 2 ^ (- c))).
  { rewrite inject_Z_mult, <- pow2_Z by lia. reflexivity. }
  rewrite (round_half_even_comp _ _ E), round_half_even_Z.
  rewrite inject_Z_mult, <- pow2_Z by lia.
  rewrite <- Qmult_assoc, pow2_cancel. ring.
Qed.

(** The error of one rounding, for a value of at most [K]. *)
Lemma rne_error_bound (x K : Q) :
  0 <= x -> x <= K -> pow2 (- 1022) <= K ->
  Qabs (rne x - x) <= K * pow2 (- 53).
Proof.
  intros Hx HxK HK.
  pose proof (pow2_pos (- 53)) as Hu.
  destruct (Qeq_dec x 0) as [E | Hx0].
  { rewrite (rne_zero x E), E.
    assert (E0 : Qabs (0 - 0) == 0) by reflexivity.
    rewrite E0. apply Qmult_le_0_compat; lra. }
  pose proof (rne_error x Hx0) as Herr.
  destruct (mag_spec x Hx0) as [Hmlo _].
  rewrite Qabs_pos in Hmlo by lra.
  apply Qle_trans with ((1 # 2) * pow2 (cexp x)); [exact Herr|].
  destruct (Z_le_gt_dec (- 1074) (mag x - 53)) as [Hn | Hs].
  - replace (cexp x) with (mag x - 1 + - 53 + 1)%Z by (unfold cexp; lia).
    rewrite pow2_succ, pow2_add.
    assert (H : pow2 (mag x - 1) * pow2 (- 53) <= K * pow2 (- 53))
      by (apply Qmult_le_compat_r; lra).
    lra.
  - replace (cexp x) with (- 1022 + - 53 + 1)%Z by (unfold cexp; lia).
    rewrite pow2_succ, pow2_add.
    assert (H : pow2 (- 1022) * pow2 (- 53) <= K * pow2 (- 53))
      by (apply Qmult_le_compat_r; lra).
    lra.
Qed.

End RneOrder.

(** *** Agreement with the machine's doubles

    On the inputs used as examples below, the operations of [number] give
    the doubles the machine computes. *)

Section MachineDoubles.
Import PrimFloat.

Example third_as_machine : floatIs (1 / 3)%float (num_div (of_Z 1) (of_Z 3)).
Proof. vm_compute. reflexivity. Qed.

Example tie_to_even_as_machine :
  floatIs (9007199254740992 + 1)%float
    (num_add (of_integer (2 ^ 53)) (of_Z 1))
  /\ floatIs (9007199254740994 + 1)%float
       (num_add (of_integer (2 ^ 53 + 2)) (of_Z 1)).
Proof. split; vm_compute; reflexivity. Qed.

Example progress_as_machine :
  floatIs ((0 + 1) / 3 * 100)%float
    (HomePage.clueProgressPercent (playing "x" 0 3 (Some "C1") []))
  /\ floatIs ((1 + 1) / 7 * 100)%float
       (HomePage.clueProgressPercent (playing "x" 1 7 (Some "C2") ["C1"])).
Proof. split; vm_compute; reflexivity. Qed.

(** The blur before [toFixed(2)], and the double of the decimal printed. *)
Example blur_as_machine :
  floatIs (30 - 1 / 80 * (30 - 12))%float
    (num_sub (of_Z 30)
       (num_mul (num_div (of_integer 1) (of_Z 80))
          (num_sub (of_Z 30) (of_Z 12))))
  /\ floatIs (2977 / 100)%float
       (HomePage.posterBlurAmount (playing "x" 1 81 (Some "C2") ["C1"]))
  /\ floatIs (2743 / 100)%float
       (HomePage.posterBlurAmount (playing "x" 1 8 (Some "C2") ["C1"])).
Proof. split; [|split]; vm_compute; reflexivity. Qed.

End MachineDoubles.

(** ** The derived values *)

Lemma setCurrentClueIndex_same (s : HomePage.State) :
  HomePage.setCurrentClueIndex (HomePage.currentClueIndex s) s = s.
Proof. now destruct s. Qed.

Lemma posterBlurAmount_zero (s : HomePage.State) :
  HomePage.game s = None
  \/ HomePage.finished s = true
  \/ truthy (HomePage.posterUrl s) = false ->
  HomePage.posterBlurAmount s = of_Z 0.
Proof.
  unfold HomePage.posterBlurAmount.
  intros [Hgame | [Hfin | Hposter]].
  - now rewrite Hgame.
  - rewrite Hfin. destruct (HomePage.game s); [|reflexivity].
    now destruct (negb (truthy (HomePage.posterUrl s))).
  - rewrite Hposter. now destruct (HomePage.game s).
Qed.


(** *** Finite results *)

Section Finite.
Open Scope Q_scope.

Lemma rne_two_64 : rne (inject_Z (2 ^ 64)) == inject_Z (2 ^ 64).
Proof. vm_compute. reflexivity. Qed.

Lemma two_64_below_overflow : inject_Z (2 ^ 64) < pow2 1024.
Proof. vm_compute. reflexivity. Qed.

(** No overflow on the values the component computes with. *)
Lemma round_fin (x : Q) :
  0 <= x -> x <= inject_Z (2 ^ 64) -> round x = Fin (rne x).
Proof.
  intros Hlo Hhi. unfold round. cbv zeta.
  destruct (Qle_bool (pow2 1024) (Qabs (rne x))) eqn:E; [|reflexivity].
  exfalso. apply Qle_bool_iff in E.
  pose proof (rne_nonneg x Hlo) as Hnn.
  rewrite Qabs_pos in E by exact Hnn.
  pose proof (rne_mono x _ Hlo Hhi) as Hmono.
  rewrite rne_two_64 in Hmono.
  pose proof two_64_below_overflow. lra.
Qed.

Lemma hasValue_eq (a : number) (v v' : Q) :
  hasValue a v -> v == v' -> hasValue a v'.
Proof.
  intros (q & -> & E) E'. exists q. split; [reflexivity|]. now rewrite E.
Qed.

Lemma hasValue_of_Z (z : Z) : hasValue (of_Z z) (inject_Z z).
Proof. exists (inject_Z z). split; reflexivity. Qed.

Lemma safeInteger_bounds (z : Z) :
  safeInteger z -> 0 <= inject_Z z /\ inject_Z z < inject_Z (2 ^ 53).
Proof.
  intros [Hlo Hhi]. split.
  - change 0 with (inject_Z 0). now rewrite <- Zle_Qle.
  - now rewrite <- Zlt_Qlt.
Qed.

Lemma two_53_below_two_64 : inject_Z (2 ^ 53) < inject_Z (2 ^ 64).
Proof. vm_compute. reflexivity. Qed.

Lemma hasValue_round (x v : Q) :
  x == v -> 0 <= v -> v <= inject_Z (2 ^ 64) -> hasValue (round x) (rne v).
Proof.
  intros E Hlo Hhi. rewrite round_fin by (rewrite E; assumption).
  exists (rne x). split; [reflexivity|]. now rewrite E.
Qed.

Lemma hasValue_of_integer (z : Z) :
  safeInteger z -> hasValue (of_integer z) (inject_Z z).
Proof.
  intros Hz. destruct (safeInteger_bounds z Hz) as [Hlo Hhi].
  pose proof two_53_below_two_64.
  apply hasValue_eq with (rne (inject_Z z)).
  - apply hasValue_round; [reflexivity | exact Hlo | lra].
  - now apply rne_int.
Qed.

Lemma hasValue_sub (a b : number) (x y : Q) :
  hasValue a x -> hasValue b y ->
  0 <= x - y -> x - y <= inject_Z (2 ^ 64) ->
  hasValue (num_sub a b) (rne (x - y)).
Proof.
  intros (q & -> & Eq) (r & -> & Er) Hlo Hhi. cbn [num_sub].
  apply hasValue_round; [now rewrite Eq, Er | exact Hlo | exact Hhi].
Qed.

Lemma hasValue_add (a b : number) (x y : Q) :
  hasValue a x -> hasValue b y ->
  0 <= x + y -> x + y <= inject_Z (2 ^ 64) ->
  hasValue (num_add a b) (rne (x + y)).
Proof.
  intros (q & -> & Eq) (r & -> & Er) Hlo Hhi. cbn [num_add].
  apply hasValue_round; [now rewrite Eq, Er | exact Hlo | exact Hhi].
Qed.

Lemma hasValue_mul (a b : number) (x y : Q) :
  hasValue a x -> hasValue b y ->
  0 <= x * y -> x * y <= inject_Z (2 ^ 64) ->
  hasValue (num_mul a b) (rne (x * y)).
Proof.
  intros (q & -> & Eq) (r & -> & Er) Hlo Hhi. cbn [num_mul].
  apply hasValue_round; [now rewrite Eq, Er | exact Hlo | exact Hhi].
Qed.

Lemma hasValue_div (a b : number) (x y : Q) :
  hasValue a x -> hasValue b y ->
  ~ y == 0 -> 0 <= x / y -> x / y <= inject_Z (2 ^ 64) ->
  hasValue (num_div a b) (rne (x / y)).
Proof.
  intros (q & -> & Eq) (r & -> & Er) Hy Hlo Hhi. cbn [num_div].
  destruct (Qeq_bool r 0) eqn:E.
  - apply Qeq_bool_iff in E. rewrite Er in E. now destruct Hy.
  - apply hasValue_round; [now rewrite Eq, Er | exact Hlo | exact Hhi].
Qed.

Lemma hasValue_min (a b : number) (x y : Q) :
  hasValue a x -> hasValue b y -> hasValue (num_min a b) (Qmin x y).
Proof.
  intros (q & -> & Eq) (r & -> & Er). cbn [num_min].
  destruct (Qle_bool q r) eqn:E.
  - apply Qle_bool_iff in E. exists q. split; [reflexivity|].
    rewrite Q.min_l; [exact Eq | now rewrite <- Eq, <- Er].
  - exists r. split; [reflexivity|].
    rewrite Q.min_r; [exact Er|]. rewrite <- Eq, <- Er.
    destruct (Qlt_le_dec r q) as [H | H]; [now apply Qlt_le_weak|].
    apply Qle_bool_iff in H. congruence.
Qed.

Lemma hasValue_max (a b : number) (x y : Q) :
  hasValue a x -> hasValue b y -> hasValue (num_max a b) (Qmax x y).
Proof.
  intros (q & -> & Eq) (r & -> & Er). cbn [num_max].
  destruct (Qle_bool q r) eqn:E.
  - apply Qle_bool_iff in E. exists r. split; [reflexivity|].
    rewrite Q.max_r; [exact Er | now rewrite <- Eq, <- Er].
  - exists q. split; [reflexivity|].
    rewrite Q.max_l; [exact Eq|]. rewrite <- Eq, <- Er.
    destruct (Qlt_le_dec r q) as [H | H]; [now apply Qlt_le_weak|].
    apply Qle_bool_iff in H. congruence.
Qed.

Lemma hundredths (n : Z) : n # 100 == inject_Z n * (1 # 100).
Proof. unfold Qeq. simpl. lia. Qed.

(** Rounding to hundredths moves a value by at most half a hundredth, and
    keeps the order. *)
Lemma nearest_hundredth_close (x : Q) :
  x - (1 # 200) < nearest_hundredth x # 100
  /\ nearest_hundredth x # 100 <= x + (1 # 200).
Proof.
  unfold nearest_hundredth. rewrite hundredths.
  pose proof (Qfloor_le (x * 100 + (1 # 2))) as Hlo.
  pose proof (Qlt_floor (x * 100 + (1 # 2))) as Hhi.
  rewrite inject_Z_plus in Hhi. change (inject_Z 1) with 1 in Hhi.
  generalize dependent (inject_Z (Qfloor (x * 100 + (1 # 2)))).
  intros q Hlo Hhi. split; lra.
Qed.

Lemma nearest_hundredth_mono (x y : Q) :
  x <= y -> nearest_hundredth x # 100 <= nearest_hundredth y # 100.
Proof.
  intros Hxy. unfold nearest_hundredth.
  assert (H : (Qfloor (x * 100 + (1 # 2)) <= Qfloor (y * 100 + (1 # 2)))%Z)
    by (apply Qfloor_resp_le; lra).
  unfold Qle. cbn [Qnum Qden]. lia.
Qed.

Lemma nearest_hundredth_comp (x y : Q) :
  x == y -> nearest_hundredth x = nearest_hundredth y.
Proof.
  intros Hxy. unfold nearest_hundredth. apply Qfloor_comp. now rewrite Hxy.
Qed.

#[global] Instance nearest_hundredth_Proper :
  Proper (Qeq ==> eq) nearest_hundredth.
Proof. intros x y E. now apply nearest_hundredth_comp. Qed.

Lemma nearest_hundredth_of_Z (z : Z) :
  nearest_hundredth (inject_Z z) = (z * 100)%Z.
Proof.
  unfold nearest_hundredth.
  apply Z.le_antisymm.
  - apply Z.lt_succ_r. rewrite Zlt_Qlt.
    eapply Qle_lt_trans; [apply Qfloor_le|].
    unfold Z.succ. rewrite inject_Z_plus, inject_Z_mult.
    change (inject_Z 100) with 100. change (inject_Z 1) with 1. lra.
  - rewrite <- (Qfloor_Z (z * 100)). apply Qfloor_resp_le.
    rewrite inject_Z_mult. change (inject_Z 100) with 100. lra.
Qed.

Lemma hundredths_of_Z (z : Z) : (z * 100 # 100) == inject_Z z.
Proof. unfold Qeq. cbn [Qnum Qden inject_Z]. lia. Qed.

(** Between 0 and 30 [toFixed2] gives the double nearest to the value
    rounded to hundredths. *)
Lemma hasValue_toFixed2 (a : number) (x : Q) :
  hasValue a x -> 0 <= x -> x <= 30 ->
  hasValue (toFixed2 a) (rne (nearest_hundredth x # 100)).
Proof.
  intros (q & -> & Eq) Hlo Hhi. unfold toFixed2, Qltb.
  assert (Hq0 : Qle_bool 0 q = true) by (apply Qle_bool_iff; now rewrite Eq).
  rewrite Hq0. cbn [negb].
  destruct (Qle_bool (inject_Z (10 ^ 21)) q) eqn:Hbig.
  - exfalso. apply Qle_bool_iff in Hbig. rewrite Eq in Hbig.
    assert (Habs : inject_Z (10 ^ 21) <= 30)
      by (eapply Qle_trans; eassumption).
    vm_compute in Habs. now destruct Habs.
  - destruct (nearest_hundredth_close x) as [Hc1 Hc2].
    assert (Hnn : 0 <= nearest_hundredth x # 100).
    { rewrite <- (hundredths_of_Z 0).
      rewrite <- (nearest_hundredth_of_Z 0).
      apply nearest_hundredth_mono. exact Hlo. }
    apply hasValue_round.
    + now rewrite Eq.
    + exact Hnn.
    + assert (H64 : 31 <= inject_Z (2 ^ 64)) by (vm_compute; discriminate).
      lra.
Qed.

Lemma pow2_53 : pow2 (- 53) == 1 # 9007199254740992.
Proof. vm_compute. reflexivity. Qed.

Lemma pow2_1022_small : pow2 (- 1022) <= 1 # 9007199254740992.
Proof. rewrite <- pow2_53. apply pow2_le. lia. Qed.

Lemma rne_small_int (z : Z) v :
  (0 <= z < 2 ^ 53)%Z -> v == inject_Z z -> rne v == inject_Z z.
Proof. intros Hz E. rewrite E. now apply rne_int. Qed.

End Finite.

(** *** The stages of the blur *)

Section BlurStages.
Open Scope Q_scope.

Lemma rne_0 : rne 0 == 0.
Proof. reflexivity. Qed.

Lemma rne_1 : rne 1 == 1.
Proof. vm_compute. reflexivity. Qed.

Lemma rne_12 : rne 12 == 12.
Proof. vm_compute. reflexivity. Qed.

Lemma rne_18 : rne 18 == 18.
Proof. vm_compute. reflexivity. Qed.

Lemma rne_30 : rne 30 == 30.
Proof. vm_compute. reflexivity. Qed.

Lemma rne_100 : rne 100 == 100.
Proof. vm_compute. reflexivity. Qed.

Lemma rne_le_double (x c : Q) :
  rne c == c -> 0 <= x -> x <= c -> rne x <= c.
Proof.
  intros Hc Hx Hxc. apply Qle_trans with (rne c); [|rewrite Hc; lra].
  now apply rne_mono.
Qed.

Lemma rne_ge_double (x c : Q) :
  rne c == c -> 0 <= c -> c <= x -> c <= rne x.
Proof.
  intros Hc Hc0 Hcx. apply Qle_trans with (rne c); [rewrite Hc; lra|].
  now apply rne_mono.
Qed.

Lemma Qmax_inject_Z (a b : Z) :
  Qmax (inject_Z a) (inject_Z b) == inject_Z (Z.max a b).
Proof.
  destruct (Z.max_spec a b) as [[Hlt ->] | [Hle ->]].
  - apply Q.max_r. rewrite <- Zle_Qle. lia.
  - apply Q.max_l. now rewrite <- Zle_Qle.
Qed.

Lemma steps_positive (total : Z) : 1 <= inject_Z (Z.max (total - 1) 1).
Proof. change 1 with (inject_Z 1). rewrite <- Zle_Qle. lia. Qed.

Lemma ratio_nonneg (i total : Z) :
  (0 <= i)%Z -> 0 <= inject_Z i / inject_Z (Z.max (total - 1) 1).
Proof.
  intros Hi. pose proof (steps_positive total) as Hs.
  apply Qle_shift_div_l; [lra|]. rewrite Qmult_0_l.
  change 0 with (inject_Z 0). now rewrite <- Zle_Qle.
Qed.

(** The clamped ratio, computed and exact. *)
Lemma clamped_ratio (x : Q) :
  0 <= x ->
  0 <= Qmin (rne x) 1 /\ Qmin (rne x) 1 <= 1
  /\ - (1 # 9007199254740992) <= Qmin (rne x) 1 - Qmin x 1
  /\ Qmin (rne x) 1 - Qmin x 1 <= 1 # 9007199254740992.
Proof.
  intros Hx. pose proof (rne_nonneg x Hx) as Hnn.
  destruct (Qlt_le_dec 1 x) as [Hgt | Hle].
  - assert (H1 : 1 <= rne x) by (apply rne_ge_double; [exact rne_1 | lra | lra]).
    rewrite (Q.min_r (rne x) 1) by exact H1.
    rewrite (Q.min_r x 1) by lra. repeat split; lra.
  - assert (H1 : rne x <= 1) by (apply rne_le_double; [exact rne_1 | lra | lra]).
    rewrite (Q.min_l (rne x) 1) by exact H1.
    rewrite (Q.min_l x 1) by exact Hle.
    pose proof pow2_1022_small as Hsmall.
    assert (Herr : Qabs (rne x - x) <= 1 * pow2 (- 53))
      by (apply rne_error_bound; lra).
    rewrite pow2_53 in Herr. apply Qabs_Qle_condition in Herr.
    repeat split; lra.
Qed.

(** The value handed to [toFixed], from a clamped ratio [m]. *)
Lemma unfixed_blur (m : Q) :
  0 <= m -> m <= 1 ->
  12 <= rne (30 - rne (m * 18)) /\ rne (30 - rne (m * 18)) <= 30
  /\ - (48 # 9007199254740992) <= rne (30 - rne (m * 18)) - (30 - m * 18)
  /\ rne (30 - rne (m * 18)) - (30 - m * 18) <= 48 # 9007199254740992.
Proof.
  intros Hlo Hhi.
  pose proof pow2_1022_small as Hsmall.
  assert (Hp0 : 0 <= rne (m * 18)) by (apply rne_nonneg; lra).
  assert (Hp18 : rne (m * 18) <= 18)
    by (apply rne_le_double; [exact rne_18 | lra | lra]).
  assert (Hperr : Qabs (rne (m * 18) - m * 18) <= 18 * pow2 (- 53))
    by (apply rne_error_bound; lra).
  rewrite pow2_53 in Hperr. apply Qabs_Qle_condition in Hperr.
  set (p := rne (m * 18)) in *.
  assert (Hx12 : 12 <= rne (30 - p))
    by (apply rne_ge_double; [exact rne_12 | lra | lra]).
  assert (Hx30 : rne (30 - p) <= 30)
    by (apply rne_le_double; [exact rne_30 | lra | lra]).
  assert (Hxerr : Qabs (rne (30 - p) - (30 - p)) <= 30 * pow2 (- 53))
    by (apply rne_error_bound; lra).
  rewrite pow2_53 in Hxerr. apply Qabs_Qle_condition in Hxerr.
  repeat split; lra.
Qed.

Lemma unfixed_blur_mono (m m' : Q) :
  0 <= m -> m <= m' -> m' <= 1 ->
  rne (30 - rne (m' * 18)) <= rne (30 - rne (m * 18)).
Proof.
  intros Hlo Hmm' Hhi.
  assert (Hp : rne (m * 18) <= rne (m' * 18)) by (apply rne_mono; lra).
  assert (Hp18 : rne (m' * 18) <= 18)
    by (apply rne_le_double; [exact rne_18 | lra | lra]).
  apply rne_mono; lra.
Qed.

Lemma hundredths_rounded_mono (x y : Q) :
  0 <= x -> x <= y ->
  rne (nearest_hundredth x # 100) <= rne (nearest_hundredth y # 100).
Proof.
  intros Hx Hxy. apply rne_mono.
  - rewrite <- (hundredths_of_Z 0), <- (nearest_hundredth_of_Z 0).
    now apply nearest_hundredth_mono.
  - now apply nearest_hundredth_mono.
Qed.

Lemma hundredths_rounded_int (x : Q) (z : Z) :
  (0 <= z < 2 ^ 53)%Z -> x == inject_Z z ->
  rne (nearest_hundredth x # 100) == inject_Z z.
Proof.
  intros Hz E. rewrite E, nearest_hundredth_of_Z, hundredths_of_Z.
  now apply rne_int.
Qed.

Lemma blurStages_mono (i j total : Z) :
  (0 <= i)%Z -> (i <= j)%Z -> blurStages j total <= blurStages i total.
Proof.
  intros Hi Hij. unfold blurStages. cbv zeta.
  pose proof (steps_positive total) as Hs.
  pose proof (ratio_nonneg i total Hi) as Hri.
  assert (Hrij : inject_Z i / inject_Z (Z.max (total - 1) 1)
                 <= inject_Z j / inject_Z (Z.max (total - 1) 1)).
  { unfold Qdiv. apply Qmult_le_compat_r; [now rewrite <- Zle_Qle|].
    apply Qinv_le_0_compat. lra. }
  destruct (clamped_ratio _ Hri) as (Hm0 & Hm1 & _).
  assert (Hrj : 0 <= inject_Z j / inject_Z (Z.max (total - 1) 1)) by lra.
  destruct (clamped_ratio _ Hrj) as (Hm0' & Hm1' & _).
  assert (Hmm : Qmin (rne (inject_Z i / inject_Z (Z.max (total - 1) 1))) 1
                <= Qmin (rne (inject_Z j / inject_Z (Z.max (total - 1) 1))) 1).
  { apply Q.min_le_compat_r. apply rne_mono; assumption. }
  apply hundredths_rounded_mono.
  - destruct (unfixed_blur _ Hm0' Hm1') as (H12 & _). lra.
  - now apply unfixed_blur_mono.
Qed.

(** A ratio clamped at 1 gives 12, a ratio of 0 gives 30. *)
Lemma blurStages_clamped (i total : Z) :
  (Z.max (total - 1) 1 <= i)%Z -> blurStages i total == 12.
Proof.
  intros Hpast. unfold blurStages. cbv zeta.
  pose proof (steps_positive total) as Hs.
  assert (Hratio : 1 <= inject_Z i / inject_Z (Z.max (total - 1) 1)).
  { apply Qle_shift_div_l; [lra|]. rewrite Qmult_1_l. now rewrite <- Zle_Qle. }
  assert (H1 : 1 <= rne (inject_Z i / inject_Z (Z.max (total - 1) 1)))
    by (apply rne_ge_double; [exact rne_1 | lra | lra]).
  rewrite (Q.min_r _ 1) by exact H1.
  apply (hundredths_rounded_int _ 12); [lia|].
  rewrite Qmult_1_l, rne_18. exact rne_12.
Qed.

Lemma blurStages_first (total : Z) : blurStages 0 total == 30.
Proof.
  unfold blurStages. cbv zeta.
  assert (Hzero : inject_Z 0 / inject_Z (Z.max (total - 1) 1) == 0)
    by (unfold Qdiv; apply Qmult_0_l).
  rewrite Hzero, rne_0, (Q.min_l 0 1) by lra.
  apply (hundredths_rounded_int _ 30); [lia|].
  rewrite Qmult_0_l, rne_0. exact rne_30.
Qed.

Lemma blurStages_range (i total : Z) :
  (0 <= i)%Z -> 12 <= blurStages i total /\ blurStages i total <= 30.
Proof.
  intros Hi. split.
  - rewrite <- (blurStages_clamped (Z.max i (Z.max (total - 1) 1)) total)
      by lia.
    apply blurStages_mono; lia.
  - rewrite <- (blurStages_first total). apply blurStages_mono; lia.
Qed.


End BlurStages.

Section BlurOfState.
Import HomePage.
Open Scope Q_scope.

Variable s : State.
Variable g : TodayGameResponse.
Hypothesis loaded : game s = Some g.
Hypothesis withPoster : truthy (posterUrl s) = true.
Hypothesis active : finished s = false.
Hypothesis totalPositive : (1 <= total_clues g)%Z.
Hypothesis totalSafe : safeInteger (total_clues g).

(** With integers that doubles hold, every stage of the computation is
    finite and the blur is the value of [blurStages]. *)
Lemma posterBlurAmount_stages (i : Z) :
  safeInteger i ->
  hasValue (posterBlurAmount (setCurrentClueIndex i s))
    (blurStages i (total_clues g)).
Proof.
  intros Hi. unfold posterBlurAmount.
  cbn [game posterUrl finished currentClueIndex setCurrentClueIndex].
  rewrite loaded, withPoster, active. cbn [negb]. cbv zeta.
  destruct (safeInteger_bounds _ Hi) as [Hi0 Hi53].
  destruct (safeInteger_bounds _ totalSafe) as [Ht0 Ht53].
  pose proof two_53_below_two_64 as H64.
  assert (Hbig : 30 <= inject_Z (2 ^ 64)) by (vm_compute; discriminate).
  pose proof (steps_positive (total_clues g)) as Hsteps.
  assert (Ht1 : 1 <= inject_Z (total_clues g)).
  { change 1 with (inject_Z 1). now rewrite <- Zle_Qle. }
  assert (Hsub : hasValue (num_sub (of_integer (total_clues g)) (of_Z 1))
                   (inject_Z (total_clues g - 1))).
  { eapply hasValue_eq.
    - apply hasValue_sub;
        [now apply hasValue_of_integer | apply hasValue_of_Z | |];
        change (inject_Z 1) with 1; lra.
    - apply rne_small_int; [destruct totalSafe; lia|].
      unfold Z.sub. rewrite inject_Z_plus. reflexivity. }
  assert (Hmax : hasValue
                   (num_max (num_sub (of_integer (total_clues g)) (of_Z 1))
                      (of_Z 1))
                   (inject_Z (Z.max (total_clues g - 1) 1))).
  { eapply hasValue_eq.
    - apply hasValue_max; [exact Hsub | apply hasValue_of_Z].
    - apply Qmax_inject_Z. }
  pose proof (ratio_nonneg i (total_clues g) (proj1 Hi)) as Hr0.
  assert (Hr64 : inject_Z i / inject_Z (Z.max (total_clues g - 1) 1)
                 <= inject_Z (2 ^ 64)).
  { apply Qle_shift_div_r; [lra|].
    apply Qle_trans with (inject_Z (2 ^ 64) * 1); [lra|].
    apply Qmult_le_l; [reflexivity | exact Hsteps]. }
  assert (Hratio : hasValue
                     (num_min
                        (num_div (of_integer i)
                           (num_max
                              (num_sub (of_integer (total_clues g)) (of_Z 1))
                              (of_Z 1)))
                        (of_Z 1))
                     (Qmin (rne (inject_Z i
                                 / inject_Z (Z.max (total_clues g - 1) 1)))
                        1)).
  { apply (hasValue_min _ (of_Z 1) _ (inject_Z 1)); [|apply hasValue_of_Z].
    apply hasValue_div;
      [now apply hasValue_of_integer | exact Hmax | lra | exact Hr0
      | exact Hr64]. }
  destruct (clamped_ratio _ Hr0) as (Hm0 & Hm1 & _).
  set (m := Qmin (rne (inject_Z i / inject_Z (Z.max (total_clues g - 1) 1)))
              1) in *.
  assert (Hrange : hasValue (num_sub (of_Z 30) (of_Z 12)) 18).
  { eapply hasValue_eq.
    - apply hasValue_sub; [apply hasValue_of_Z | apply hasValue_of_Z | |];
        [vm_compute; discriminate | vm_compute; discriminate].
    - vm_compute. reflexivity. }
  assert (Hmul : hasValue
                   (num_mul
                      (num_min
                         (num_div (of_integer i)
                            (num_max
                               (num_sub (of_integer (total_clues g))
                                  (of_Z 1))
                               (of_Z 1)))
                         (of_Z 1))
                      (num_sub (of_Z 30) (of_Z 12)))
                   (rne (m * 18))).
  { apply hasValue_mul; [exact Hratio | exact Hrange | lra | lra]. }
  assert (Hp0 : 0 <= rne (m * 18)) by (apply rne_nonneg; lra).
  assert (Hp18 : rne (m * 18) <= 18)
    by (apply rne_le_double; [exact rne_18 | lra | lra]).
  destruct (unfixed_blur m Hm0 Hm1) as (Hx12 & Hx30 & _).
  unfold blurStages. cbv zeta. fold m.
  apply hasValue_toFixed2; [|lra | lra].
  apply (hasValue_sub (of_Z 30) _ (inject_Z 30));
    [apply hasValue_of_Z | exact Hmul | |];
    change (inject_Z 30) with 30; lra.
Qed.

Lemma posterBlurAmount_stages_here :
  safeInteger (currentClueIndex s) ->
  hasValue (posterBlurAmount s) (blurStages (currentClueIndex s) (total_clues g)).
Proof.
  intros Hi. pose proof (posterBlurAmount_stages _ Hi) as H.
  now rewrite setCurrentClueIndex_same in H.
Qed.

End BlurOfState.


(** The tie of 29.775: with 81 clues, at the second one the double the
    component computes lies just below it, and 29.77 is printed. *)
Example blur_below_a_tie :
  num_eq (HomePage.posterBlurAmount (playing "x" 1 81 (Some "C2") ["C1"]))
    (Fin (rne (2977 # 100))).
Proof. vm_compute. reflexivity. Qed.



Lemma inject_Z_positive (z : Z) : (1 <= z)%Z -> (0 < inject_Z z)%Q.
Proof. unfold Qlt. simpl. lia. Qed.

(** *** The stages of the progress *)

Section PercentStages.
Open Scope Q_scope.

Variables i total : Z.
Hypothesis indexNonneg : (0 <= i)%Z.
Hypothesis totalPositive : (1 <= total)%Z.

Lemma quotient_positive : 0 < inject_Z (i + 1) / inject_Z total.
Proof.
  apply Qlt_shift_div_l.
  - apply inject_Z_positive. exact totalPositive.
  - rewrite Qmult_0_l. apply inject_Z_positive. lia.
Qed.

Lemma quotient_le_1 :
  (i <= total - 1)%Z -> inject_Z (i + 1) / inject_Z total <= 1.
Proof.
  intros H. apply Qle_shift_div_r.
  - apply inject_Z_positive. exact totalPositive.
  - rewrite Qmult_1_l, <- Zle_Qle. lia.
Qed.

Lemma quotient_ge_1 :
  (total - 1 <= i)%Z -> 1 <= inject_Z (i + 1) / inject_Z total.
Proof.
  intros H. apply Qle_shift_div_l.
  - apply inject_Z_positive. exact totalPositive.
  - rewrite Qmult_1_l, <- Zle_Qle. lia.
Qed.

Lemma quotient_not_tiny :
  (total < 2 ^ 53)%Z -> pow2 (- 1022) <= inject_Z (i + 1) / inject_Z total.
Proof.
  intros Ht. apply Qle_trans with (1 # 9007199254740992);
    [exact pow2_1022_small|].
  apply Qle_shift_div_l.
  - apply inject_Z_positive. exact totalPositive.
  - assert (H1 : 1 <= inject_Z (i + 1)).
    { change 1 with (inject_Z 1). rewrite <- Zle_Qle. lia. }
    assert (H2 : inject_Z total <= inject_Z (2 ^ 53)).
    { rewrite <- Zle_Qle. lia. }
    change (inject_Z (2 ^ 53)) with 9007199254740992 in H2. lra.
Qed.

(** The computed percentage is the formula of the specification with each
    of its steps rounded. *)
Lemma percentStages_rounded_formula :
  percentStages i total == progressFormulaRounded i total.
Proof.
  unfold percentStages, progressFormulaRounded.
  pose proof quotient_positive as Ha.
  set (a := inject_Z (i + 1) / inject_Z total) in *.
  assert (Hq0 : 0 <= rne a) by (apply rne_nonneg; lra).
  destruct (Qlt_le_dec 1 (rne a)) as [Hgt | Hle].
  - rewrite (Q.min_r (rne a) 1) by lra.
    rewrite Qmult_1_l, rne_100.
    apply Q.min_r. apply rne_ge_double; [exact rne_100 | lra | lra].
  - rewrite (Q.min_l (rne a) 1) by exact Hle.
    apply Q.min_l. apply rne_le_double; [exact rne_100 | lra | lra].
Qed.

Lemma percentStages_range :
  0 <= percentStages i total /\ percentStages i total <= 100.
Proof.
  unfold percentStages.
  pose proof quotient_positive as Ha.
  set (a := inject_Z (i + 1) / inject_Z total) in *.
  assert (Hq0 : 0 <= rne a) by (apply rne_nonneg; lra).
  assert (Hp0 : 0 <= rne (rne a * 100)) by (apply rne_nonneg; lra).
  split.
  - apply Q.min_glb; lra.
  - apply Q.le_min_r.
Qed.

Lemma percentStages_capped :
  (total - 1 <= i)%Z -> percentStages i total == 100.
Proof.
  intros Hpast. unfold percentStages.
  pose proof (quotient_ge_1 Hpast) as Ha.
  set (a := inject_Z (i + 1) / inject_Z total) in *.
  assert (Hq : 1 <= rne a)
    by (apply rne_ge_double; [exact rne_1 | lra | lra]).
  apply Q.min_r. apply rne_ge_double; [exact rne_100 | lra | lra].
Qed.

(** Below the cap the two roundings keep the result within a relative
    [2^-50] of the exact percentage. *)
Lemma percentStages_close :
  (total < 2 ^ 53)%Z ->
  - (progressFormula i total * (1 # 1125899906842624))
  <= percentStages i total - progressFormula i total
  /\ percentStages i total - progressFormula i total
     <= progressFormula i total * (1 # 1125899906842624).
Proof.
  intros Ht. unfold progressFormula.
  pose proof quotient_positive as Ha.
  pose proof (quotient_not_tiny Ht) as Htiny.
  assert (Hcap : (total - 1 <= i)%Z -> percentStages i total == 100)
    by exact percentStages_capped.
  unfold percentStages in *.
  set (a := inject_Z (i + 1) / inject_Z total) in *.
  destruct (Qlt_le_dec a 1) as [Hlt | Hge].
  - 
    assert (Hq1 : rne a <= 1)
      by (apply rne_le_double; [exact rne_1 | lra | lra]).
    assert (Hq0 : 0 <= rne a) by (apply rne_nonneg; lra).
    assert (Hqerr : Qabs (rne a - a) <= a * pow2 (- 53))
      by (apply rne_error_bound; lra).
    rewrite pow2_53 in Hqerr. apply Qabs_Qle_condition in Hqerr.
    assert (Hp100 : rne (rne a * 100) <= 100)
      by (apply rne_le_double; [exact rne_100 | lra | lra]).
    assert (Hperr : Qabs (rne (rne a * 100) - rne a * 100)
                    <= rne a * 100 * pow2 (- 53))
      by (apply rne_error_bound; lra).
    rewrite pow2_53 in Hperr. apply Qabs_Qle_condition in Hperr.
    rewrite (Q.min_l (rne (rne a * 100)) 100) by exact Hp100.
    rewrite (Q.min_l a 1) by lra.
    split; lra.
  - assert (Hi : (total - 1 <= i)%Z).
    { assert (H : inject_Z total <= inject_Z (i + 1)).
      { unfold a in Hge.
        apply Qle_trans with (1 * inject_Z total); [lra|].
        assert (Hpos : 0 < inject_Z total)
          by (apply inject_Z_positive; exact totalPositive).
        assert (E : inject_Z (i + 1)
                    == inject_Z (i + 1) / inject_Z total * inject_Z total)
          by (field; lra).
        rewrite E. apply Qmult_le_compat_r; lra. }
      rewrite <- Zle_Qle in H. lia. }
    rewrite (Hcap Hi), (Q.min_r a 1) by exact Hge.
    split; lra.
Qed.

End PercentStages.

Section PercentOrder.
Open Scope Q_scope.

(** With at most [2^48] clues, consecutive clues below the last are kept
    apart by the two roundings. *)
Lemma percentStages_strict (i j total : Z) :
  (0 <= i)%Z -> (i < j)%Z -> (j <= total - 1)%Z -> (total <= 2 ^ 48)%Z ->
  percentStages i total < percentStages j total.
Proof.
  intros Hi Hij Hj Ht.
  assert (Htotal : (1 <= total)%Z) by lia.
  assert (Hj0 : (0 <= j)%Z) by lia.
  pose proof (quotient_positive i total Hi Htotal) as Hai.
  pose proof (quotient_positive j total Hj0 Htotal) as Haj.
  pose proof (quotient_le_1 i total Htotal ltac:(lia)) as Hai1.
  pose proof (quotient_le_1 j total Htotal Hj) as Haj1.
  pose proof pow2_1022_small as Hsmall.
  assert (HT : 0 < inject_Z total) by now apply inject_Z_positive.
  assert (Hgap : 1 # 281474976710656
                 <= inject_Z (j + 1) / inject_Z total
                    - inject_Z (i + 1) / inject_Z total).
  { assert (E : inject_Z (j + 1) / inject_Z total
                - inject_Z (i + 1) / inject_Z total
                == (inject_Z (j + 1) - inject_Z (i + 1)) / inject_Z total)
      by (field; lra).
    rewrite E. apply Qle_shift_div_l; [exact HT|].
    assert (H1 : 1 <= inject_Z (j + 1) - inject_Z (i + 1)).
    { assert (H : inject_Z (i + 1) + 1 <= inject_Z (j + 1)).
      { change 1 with (inject_Z 1). rewrite <- inject_Z_plus, <- Zle_Qle.
        lia. }
      lra. }
    assert (H2 : inject_Z total <= inject_Z (2 ^ 48))
      by now rewrite <- Zle_Qle.
    change (inject_Z (2 ^ 48)) with 281474976710656 in H2. lra. }
  unfold percentStages.
  set (ai := inject_Z (i + 1) / inject_Z total) in *.
  set (aj := inject_Z (j + 1) / inject_Z total) in *.
  assert (Hqi : Qabs (rne ai - ai) <= 1 * pow2 (- 53))
    by (apply rne_error_bound; lra).
  assert (Hqj : Qabs (rne aj - aj) <= 1 * pow2 (- 53))
    by (apply rne_error_bound; lra).
  rewrite pow2_53 in Hqi, Hqj.
  apply Qabs_Qle_condition in Hqi. apply Qabs_Qle_condition in Hqj.
  assert (Hqi0 : 0 <= rne ai) by (apply rne_nonneg; lra).
  assert (Hqj0 : 0 <= rne aj) by (apply rne_nonneg; lra).
  assert (Hqi1 : rne ai <= 1)
    by (apply rne_le_double; [exact rne_1 | lra | lra]).
  assert (Hqj1 : rne aj <= 1)
    by (apply rne_le_double; [exact rne_1 | lra | lra]).
  assert (Hpi : Qabs (rne (rne ai * 100) - rne ai * 100) <= 100 * pow2 (- 53))
    by (apply rne_error_bound; lra).
  assert (Hpj : Qabs (rne (rne aj * 100) - rne aj * 100) <= 100 * pow2 (- 53))
    by (apply rne_error_bound; lra).
  rewrite pow2_53 in Hpi, Hpj.
  apply Qabs_Qle_condition in Hpi. apply Qabs_Qle_condition in Hpj.
  assert (Hpi100 : rne (rne ai * 100) <= 100)
    by (apply rne_le_double; [exact rne_100 | lra | lra]).
  assert (Hpj100 : rne (rne aj * 100) <= 100)
    by (apply rne_le_double; [exact rne_100 | lra | lra]).
  rewrite (Q.min_l (rne (rne ai * 100)) 100) by exact Hpi100.
  rewrite (Q.min_l (rne (rne aj * 100)) 100) by exact Hpj100.
  lra.
Qed.

End PercentOrder.

Section PercentOfState.
Import HomePage.
Open Scope Q_scope.

Variable s : State.
Variable g : TodayGameResponse.
Hypothesis loaded : game s = Some g.
Hypothesis totalPositive : (1 <= total_clues g)%Z.
Hypothesis totalSafe : safeInteger (total_clues g).

Lemma rne_two_53 : rne (inject_Z (2 ^ 53)) == inject_Z (2 ^ 53).
Proof. vm_compute. reflexivity. Qed.

(** With integers that doubles hold, every stage of the computation is
    finite and the percentage is the value of [percentStages]. *)
Lemma clueProgressPercent_stages (i : Z) :
  (0 <= i)%Z -> safeInteger (i + 1) ->
  hasValue (clueProgressPercent (setCurrentClueIndex i s))
    (percentStages i (total_clues g)).
Proof.
  intros Hi0 Hi1. unfold clueProgressPercent.
  cbn [game currentClueIndex setCurrentClueIndex]. rewrite loaded.
  assert (Hi : safeInteger i) by (destruct Hi1; split; lia).
  destruct (safeInteger_bounds _ Hi1) as [Hn0 Hn53].
  destruct (safeInteger_bounds _ totalSafe) as [Ht0 Ht53].
  pose proof two_53_below_two_64 as H64.
  assert (HT : 0 < inject_Z (total_clues g)) by now apply inject_Z_positive.
  assert (Ht1 : 1 <= inject_Z (total_clues g)).
  { change 1 with (inject_Z 1). now rewrite <- Zle_Qle. }
  assert (Hadd : hasValue (num_add (of_integer i) (of_Z 1))
                   (inject_Z (i + 1))).
  { eapply hasValue_eq.
    - apply hasValue_add;
        [now apply hasValue_of_integer | apply hasValue_of_Z | |];
        rewrite <- inject_Z_plus; lra.
    - apply rne_small_int; [exact Hi1|]. now rewrite inject_Z_plus. }
  pose proof (quotient_positive i (total_clues g) Hi0 totalPositive) as Ha.
  assert (Ha53 : inject_Z (i + 1) / inject_Z (total_clues g)
                 <= inject_Z (2 ^ 53)).
  { apply Qle_shift_div_r; [exact HT|].
    apply Qle_trans with (inject_Z (2 ^ 53) * 1); [lra|].
    apply Qmult_le_l; [reflexivity | exact Ht1]. }
  assert (Hdiv : hasValue
                   (num_div (num_add (of_integer i) (of_Z 1))
                      (of_integer (total_clues g)))
                   (rne (inject_Z (i + 1) / inject_Z (total_clues g)))).
  { apply hasValue_div;
      [exact Hadd | now apply hasValue_of_integer | lra | lra | lra]. }
  set (q := rne (inject_Z (i + 1) / inject_Z (total_clues g))) in *.
  assert (Hq0 : 0 <= q) by (apply rne_nonneg; lra).
  assert (Hq53 : q <= inject_Z (2 ^ 53))
    by (apply rne_le_double; [exact rne_two_53 | lra | exact Ha53]).
  assert (H100 : inject_Z (2 ^ 53) * 100 <= inject_Z (2 ^ 64))
    by (vm_compute; discriminate).
  unfold percentStages. fold q.
  apply (hasValue_min _ (of_Z 100) _ (inject_Z 100)); [|apply hasValue_of_Z].
  apply (hasValue_mul _ (of_Z 100) _ (inject_Z 100));
    [exact Hdiv | apply hasValue_of_Z | |];
    change (inject_Z 100) with 100; lra.
Qed.

Lemma clueProgressPercent_stages_here :
  (0 <= currentClueIndex s)%Z -> safeInteger (currentClueIndex s + 1) ->
  hasValue (clueProgressPercent s)
    (percentStages (currentClueIndex s) (total_clues g)).
Proof.
  intros H0 H1. pose proof (clueProgressPercent_stages _ H0 H1) as H.
  now rewrite setCurrentClueIndex_same in H.
Qed.

End PercentOfState.

(** C6, as stated, fails on the doubles the component computes with.  With
    three clues, at the first one the percentage is the double nearest to
    100/3 scaled, not 100/3.  And the percentage is not strictly increasing
    at every size: with 2^60 clues, the indexes 2^53 - 1 and 2^53 give the
    same percentage, since adding 1 to 2^53 does not change it. *)
Lemma progress_is_rounded_and_can_stall :
  (exists q,
      HomePage.clueProgressPercent (playing "x" 0 3 (Some "C1") []) = Fin q
      /\ ~ (q == progressFormula 0 3)%Q)
  /\ (let s := playing "x" 0 (2 ^ 60) (Some "C1") [] in
      2 ^ 53 - 1 < 2 ^ 53
      /\ 2 ^ 53 <= 2 ^ 60 - 1
      /\ num_eq
           (HomePage.clueProgressPercent
              (HomePage.setCurrentClueIndex (2 ^ 53 - 1) s))
           (HomePage.clueProgressPercent
              (HomePage.setCurrentClueIndex (2 ^ 53) s))
      /\ ~ num_lt
             (HomePage.clueProgressPercent
                (HomePage.setCurrentClueIndex (2 ^ 53 - 1) s))
             (HomePage.clueProgressPercent
                (HomePage.setCurrentClueIndex (2 ^ 53) s))).
Proof.
  split.
  - eexists. split; [vm_compute; reflexivity|]. vm_compute. discriminate.
  - cbv zeta. split; [lia|]. split; [lia|]. split.
    + vm_compute. reflexivity.
    + vm_compute. discriminate.
Qed.

(** C6 (amended).  For a loaded session with a positive number of clues and
    integers that doubles hold exactly (below 2^53), the clue-progress
    percentage is [min((currentClueIndex + 1) / totalClues, 1) * 100] as
    computed on doubles, each operation rounded to the nearest double, and
    so within a relative 2^-50 of the exact value; it is always in
    [0, 100]; it is exactly 100 at [currentClueIndex = totalClues - 1]; and
    it is strictly increasing in [currentClueIndex] up to [totalClues - 1]
    when there are at most 2^48 clues. *)
Theorem clue_progress_percentage :
  forall (s : HomePage.State) (g : HomePage.TodayGameResponse),
    HomePage.game s = Some g ->
    1 <= HomePage.total_clues g ->
    safeInteger (HomePage.total_clues g) ->
    (0 <= HomePage.currentClueIndex s ->
     safeInteger (HomePage.currentClueIndex s + 1) ->
     exists q : Q,
       HomePage.clueProgressPercent s = Fin q
       /\ (q == progressFormulaRounded (HomePage.currentClueIndex s)
                 (HomePage.total_clues g))%Q
       /\ (- (progressFormula (HomePage.currentClueIndex s)
                (HomePage.total_clues g) * (1 # 1125899906842624))
           <= q - progressFormula (HomePage.currentClueIndex s)
                    (HomePage.total_clues g))%Q
       /\ (q - progressFormula (HomePage.currentClueIndex s)
                 (HomePage.total_clues g)
           <= progressFormula (HomePage.currentClueIndex s)
                (HomePage.total_clues g) * (1 # 1125899906842624))%Q
       /\ (0 <= q)%Q /\ (q <= 100)%Q)
    /\ (HomePage.currentClueIndex s = HomePage.total_clues g - 1 ->
        num_eq (HomePage.clueProgressPercent s) (of_Z 100))
    /\ (forall i j,
           0 <= i -> i < j -> j <= HomePage.total_clues g - 1 ->
           HomePage.total_clues g <= 2 ^ 48 ->
           num_lt
             (HomePage.clueProgressPercent (HomePage.setCurrentClueIndex i s))
             (HomePage.clueProgressPercent (HomePage.setCurrentClueIndex j s))).
Proof.
  intros s g Hg Htotal Hsafe. split; [|split].
  - intros Hidx Hnext.
    destruct (clueProgressPercent_stages_here s g Hg Htotal Hsafe Hidx Hnext)
      as (q & Hq & E).
    exists q. split; [exact Hq|].
    destruct (percentStages_close _ _ Hidx Htotal (proj2 Hsafe))
      as [Hc1 Hc2].
    destruct (percentStages_range _ _ Hidx Htotal) as [Hr1 Hr2].
    rewrite <- E in Hc1, Hc2, Hr1, Hr2.
    split; [|repeat split; assumption].
    rewrite E. now apply percentStages_rounded_formula.
  - intros Hlast.
    assert (Hidx : 0 <= HomePage.currentClueIndex s) by lia.
    assert (Hnext : safeInteger (HomePage.currentClueIndex s + 1))
      by (rewrite Hlast; destruct Hsafe; split; lia).
    destruct (clueProgressPercent_stages_here s g Hg Htotal Hsafe Hidx Hnext)
      as (q & -> & E).
    cbn [num_eq of_Z]. rewrite E.
    apply percentStages_capped; [exact Htotal | lia].
  - intros i j Hi Hij Hj Hsize.
    assert (Hsi : safeInteger (i + 1)) by (destruct Hsafe; split; lia).
    assert (Hsj : safeInteger (j + 1)) by (destruct Hsafe; split; lia).
    destruct (clueProgressPercent_stages s g Hg Htotal Hsafe i Hi Hsi)
      as (qi & -> & Ei).
    destruct (clueProgressPercent_stages s g Hg Htotal Hsafe j
                ltac:(lia) Hsj) as (qj & -> & Ej).
    cbn [num_lt]. rewrite Ei, Ej.
    now apply percentStages_strict.
Qed.

Lemma clue_progress_percentage_witness :
  let s := playing "x" 4 5 (Some "C5") ["C1"; "C2"; "C3"; "C4"] in
  num_eq (HomePage.clueProgressPercent s) (of_Z 100)
  /\ num_lt (HomePage.clueProgressPercent (HomePage.setCurrentClueIndex 1 s))
       (HomePage.clueProgressPercent (HomePage.setCurrentClueIndex 2 s)).
Proof.
  cbv zeta.
  pose (s := playing "x" 4 5 (Some "C5") ["C1"; "C2"; "C3"; "C4"]).
  assert (Htotal : 1 <= HomePage.total_clues (sessionOf "x" "C1" 0 5))
    by (cbn; lia).
  assert (Hsafe : safeInteger (HomePage.total_clues (sessionOf "x" "C1" 0 5)))
    by (unfold safeInteger; cbn; lia).
  destruct (clue_progress_percentage s (sessionOf "x" "C1" 0 5) eq_refl
              Htotal Hsafe) as (_ & Hlast & Hincr).
  split.
  - apply Hlast. reflexivity.
  - apply Hincr; cbn; lia.
Defined.


(** * Further properties of the component *)

(** ** Loads *)

Section MoreLoading.
Import HomePage.

Variable srv : nat -> Response TodayGameResponse.
Variable s : State.

(** Whatever the options, a load that finds a game leaves the fresh session
    of that game. *)
Lemma fetchGame_fresh (options : option FetchOptions) (g : TodayGameResponse) :
  fst (fetchLoop (requireDifferentOf options) (excludeSlugOf options) srv
         (maxAttemptsOf (requireDifferentOf options)) 0) = Found g ->
  fst (fetchGame options srv s) = freshSession g.
Proof.
  intros Hfound. unfold fetchGame.
  destruct (fetchLoop (requireDifferentOf options) (excludeSlugOf options)
              srv (maxAttemptsOf (requireDifferentOf options)) 0)
    as [exit log].
  cbn [fst] in Hfound. subst exit.
  destruct (requireDifferentOf options); reflexivity.
Qed.

(** A load either finds a game or installs nothing. *)
Lemma fetchGame_outcome (options : option FetchOptions) :
  (exists g,
      fst (fetchLoop (requireDifferentOf options) (excludeSlugOf options) srv
             (maxAttemptsOf (requireDifferentOf options)) 0) = Found g
      /\ fst (fetchGame options srv s) = freshSession g)
  \/ (exists msg,
         (forall g,
             fst (fetchLoop (requireDifferentOf options)
                    (excludeSlugOf options) srv
                    (maxAttemptsOf (requireDifferentOf options)) 0)
             <> Found g)
         /\ fst (fetchGame options srv s)
            = setIsLoadingGame false (setStatusMessage (Some msg) s)).
Proof.
  destruct (fst (fetchLoop (requireDifferentOf options)
                   (excludeSlugOf options) srv
                   (maxAttemptsOf (requireDifferentOf options)) 0))
    as [g| |] eqn:Hexit.
  - left. exists g. split; [reflexivity|]. now apply fetchGame_fresh.
  - right.
    destruct (fetchGame_nothing_installed srv s options) as (msg & _ & Heq).
    { intros g. rewrite Hexit. discriminate. }
    exists msg. split; [|exact Heq]. intros g. discriminate.
  - right.
    destruct (fetchGame_nothing_installed srv s options) as (msg & _ & Heq).
    { intros g. rewrite Hexit. discriminate. }
    exists msg. split; [|exact Heq]. intros g. discriminate.
Qed.

End MoreLoading.

(** X1.  A load that does not require a different movie (no options, or
    [requireDifferent] missing or false) makes exactly one fetch whatever
    the answer, and never retries.  A successful answer is installed
    whatever its slug, also when a slug to exclude was passed; a failed one
    leaves the state as it was but for the message that today's game could
    not be loaded. *)
Theorem plain_load_single_fetch :
  forall (options : option HomePage.FetchOptions)
         (srv : nat -> Response HomePage.TodayGameResponse)
         (s : HomePage.State),
    HomePage.requireDifferentOf options = false ->
    let result := HomePage.fetchGame options srv s in
    snd result = [GetTodayGame]
    /\ (forall data, srv 0%nat = Ok200 data -> fst result = freshSession data)
    /\ ((forall data, srv 0%nat <> Ok200 data) ->
        fst result
        = HomePage.setIsLoadingGame false
            (HomePage.setStatusMessage (Some HomePage.msgLoadFailed) s)).
Proof.
  intros options srv s Hplain result. subst result.
  unfold HomePage.fetchGame. rewrite Hplain.
  cbn [HomePage.maxAttemptsOf HomePage.fetchLoop negb orb].
  destruct (srv 0%nat) as [d| |]; cbn [fst snd].
  - split; [reflexivity|]. split.
    + intros data [= <-]. reflexivity.
    + intros Hno. now destruct (Hno d).
  - split; [reflexivity|]. split; [discriminate | reflexivity].
  - split; [reflexivity|]. split; [discriminate | reflexivity].
Qed.

Lemma plain_load_single_fetch_witness :
  let options :=
    Some (HomePage.mkFetchOptions (Some false) (Val "A")) in
  HomePage.fetchGame options (always "A")
    (playing "A" 3 5 (Some "C4") ["C1"; "C2"; "C3"])
  = (freshSession (sessionOf "A" "C1" 0 5), [GetTodayGame]).
Proof.
  cbv zeta.
  destruct (plain_load_single_fetch
              (Some (HomePage.mkFetchOptions (Some false) (Val "A")))
              (always "A") (playing "A" 3 5 (Some "C4") ["C1"; "C2"; "C3"])
              eq_refl) as (Hlog & Hok & _).
  rewrite (surjective_pairing (HomePage.fetchGame _ _ _)).
  now rewrite Hlog, (Hok _ eq_refl).
Defined.

(** X2.  A load that finds a game replaces the state as a whole: every cell
    is set from the fetched game or back to its first value, so nothing of
    the session before survives (history, input, reveal, message), and the
    result does not depend on the state before.  The [solved] flag of the
    fetched game is not looked at: the session starts unfinished. *)
Theorem load_replaces_state :
  forall (options : option HomePage.FetchOptions)
         (srv : nat -> Response HomePage.TodayGameResponse)
         (prev prev' : HomePage.State) (g : HomePage.TodayGameResponse),
    fst (HomePage.fetchLoop (HomePage.requireDifferentOf options)
           (HomePage.excludeSlugOf options) srv
           (HomePage.maxAttemptsOf (HomePage.requireDifferentOf options)) 0)
    = HomePage.Found g ->
    let s := fst (HomePage.fetchGame options srv prev) in
    s = HomePage.mkState (Some g) (HomePage.current_clue_index g)
          (Some (HomePage.current_clue_text g)) false "" None false None
          (HomePage.poster_url g) []
    /\ s = fst (HomePage.fetchGame options srv prev')
    /\ HomePage.finished s = false.
Proof.
  intros options srv prev prev' g Hfound s. subst s.
  rewrite !(fetchGame_fresh srv _ options g Hfound).
  repeat split.
Qed.

Lemma load_replaces_state_witness :
  let g :=
    HomePage.mkTodayGameResponse "2025-01-01" "y" 4 2 "C3" true None in
  let s :=
    fst (HomePage.fetchGame (excluding (Val "x")) (fun _ => Ok200 g)
           (HomePage.submitAll (playing "x" 1 5 (Some "C2") ["C1"])
              [rightGuess (Some "Movie X")])) in
  HomePage.finished s = false
  /\ HomePage.previousClues s = []
  /\ HomePage.revealedTitle s = None
  /\ HomePage.currentClueIndex s = 2.
Proof.
  cbv zeta.
  destruct (load_replaces_state (excluding (Val "x"))
              (fun _ =>
                 Ok200 (HomePage.mkTodayGameResponse "2025-01-01" "y" 4 2
                          "C3" true None))
              (HomePage.submitAll (playing "x" 1 5 (Some "C2") ["C1"])
                 [rightGuess (Some "Movie X")])
              HomePage.initialState _ eq_refl) as (Heq & _ & _).
  rewrite Heq. repeat split.
Defined.

(** X3.  However a load ends (a game installed, attempts used up, a failed
    fetch), the loading flag is down afterwards; and the status message is
    empty afterwards exactly when a game was installed. *)
Theorem load_clears_flag_and_reports :
  forall (options : option HomePage.FetchOptions)
         (srv : nat -> Response HomePage.TodayGameResponse)
         (s : HomePage.State),
    let s' := fst (HomePage.fetchGame options srv s) in
    HomePage.isLoadingGame s' = false
    /\ (HomePage.statusMessage s' = None
        <-> exists g,
          fst (HomePage.fetchLoop (HomePage.requireDifferentOf options)
                 (HomePage.excludeSlugOf options) srv
                 (HomePage.maxAttemptsOf (HomePage.requireDifferentOf options))
                 0)
          = HomePage.Found g).
Proof.
  intros options srv s s'. subst s'.
  destruct (fetchGame_outcome srv s options)
    as [(g & Hfound & ->) | (msg & Hnot & ->)].
  - split; [reflexivity|]. split; [now exists g | reflexivity].
  - split; [reflexivity|]. split.
    + discriminate.
    + intros (g & Hfound). now destruct (Hnot g).
Qed.

(** ** Submissions *)

(** X4.  In an active session a submission issues exactly one request,
    which carries the slug of the loaded game, the input as typed (not
    trimmed, the empty input included) and the index of the current clue.
    Whatever comes back, the input is cleared, the game and the loading
    flag are not touched, and the status message is the verdict's message
    or, after a failed request, the fixed failure message. *)
Theorem submission_request_and_cleanup :
  forall (s : HomePage.State) (g : HomePage.TodayGameResponse)
         (srv : GuessBody -> Response GuessResponse),
    HomePage.game s = Some g ->
    HomePage.finished s = false ->
    let body :=
      mkGuessBody (HomePage.movie_slug g) (HomePage.guess s)
        (HomePage.currentClueIndex s) in
    let s' := fst (HomePage.handleSubmitGuess srv s) in
    snd (HomePage.handleSubmitGuess srv s) = [PostGuess body]
    /\ HomePage.guess s' = ""
    /\ HomePage.game s' = HomePage.game s
    /\ HomePage.isLoadingGame s' = HomePage.isLoadingGame s
    /\ (forall data,
           srv body = Ok200 data ->
           HomePage.statusMessage s' = Some (message data))
    /\ ((forall data, srv body <> Ok200 data) ->
        HomePage.statusMessage s' = Some HomePage.msgGuessFailed).
Proof.
  intros s g srv Hg Hact body s'. subst body s'.
  unfold HomePage.handleSubmitGuess. rewrite Hg, Hact.
  destruct (srv (mkGuessBody (HomePage.movie_slug g) (HomePage.guess s)
                   (HomePage.currentClueIndex s))) as [d| |]; cbn [fst snd].
  - unfold HomePage.applyVerdict.
    destruct (correct d || verdict_finished d),
      (truthy (reveal_poster_url d)), (truthy (next_clue_text d));
      (split; [reflexivity|]); (split; [reflexivity|]);
      (split; [exact Hg || (cbn; exact Hg)|]); (split; [reflexivity|]);
      (split; [intros data [= <-]; reflexivity
              | intros Hno; now destruct (Hno d)]).
  - repeat split; try discriminate. exact Hg.
  - repeat split; try discriminate. exact Hg.
Qed.

Lemma submission_request_and_cleanup_witness :
  let s := HomePage.setGuess "  heat " (playing "x" 2 5 (Some "C3") ["C1"; "C2"]) in
  HomePage.handleSubmitGuess (fun _ => Rejected) s
  = (HomePage.setStatusMessage (Some HomePage.msgGuessFailed)
       (playing "x" 2 5 (Some "C3") ["C1"; "C2"]),
     [PostGuess (mkGuessBody "x" "  heat " 2)]).
Proof.
  cbv zeta.
  destruct (submission_request_and_cleanup
              (HomePage.setGuess "  heat "
                 (playing "x" 2 5 (Some "C3") ["C1"; "C2"]))
              (sessionOf "x" "C1" 0 5) (fun _ => Rejected) eq_refl eq_refl)
    as (Hlog & _).
  rewrite (surjective_pairing (HomePage.handleSubmitGuess _ _)).
  rewrite Hlog. reflexivity.
Defined.

(** X5.  The guard of the handler and the condition under which the form is
    rendered are the same: a submission issues a request exactly when the
    rendered page has the guess form, that is when a game is loaded and the
    session is not finished; when it issues none, the state is returned as
    it is. *)
Theorem submission_guard_matches_form :
  forall (s : HomePage.State) (srv : GuessBody -> Response GuessResponse),
    ((exists p,
         HomePage.panel (HomePage.render s) = Some p
         /\ HomePage.guessInput p = Some (HomePage.guess s))
     <-> snd (HomePage.handleSubmitGuess srv s) <> [])
    /\ (snd (HomePage.handleSubmitGuess srv s) <> []
        <-> HomePage.game s <> None /\ HomePage.finished s = false)
    /\ (snd (HomePage.handleSubmitGuess srv s) = [] ->
        fst (HomePage.handleSubmitGuess srv s) = s).
Proof.
  intros s srv. unfold HomePage.handleSubmitGuess, HomePage.render.
  cbn [HomePage.panel].
  destruct (HomePage.game s) as [g|]; [destruct (HomePage.finished s)|];
    cbn [fst snd HomePage.guessInput].
  - split; [split|split; [split|]].
    + intros (p & [= <-] & Hin). discriminate.
    + intros H. now destruct H.
    + intros H. now destruct H.
    + intros [_ H]. discriminate.
    + reflexivity.
  - split; [split|split; [split|]].
    + discriminate.
    + intros _. eexists. split; reflexivity.
    + intros _. split; [discriminate | reflexivity].
    + discriminate.
    + discriminate.
  - split; [split|split; [split|]].
    + intros (p & H & _). discriminate.
    + intros H. now destruct H.
    + intros H. now destruct H.
    + intros [H _]. now destruct H.
    + reflexivity.
Qed.

(** ** The "New movie" button *)

(** X6.  Pressing "New movie" in a session whose slug is not empty issues
    at most five requests and has one of two outcomes: a game with another
    slug is installed as a fresh session, or the session stays as it was,
    with the input kept and a status message set.  A game with the slug of
    the session being played is never installed. *)
Theorem new_movie_never_repeats_slug :
  forall (s : HomePage.State) (g : HomePage.TodayGameResponse)
         (srv : nat -> Response HomePage.TodayGameResponse),
    HomePage.game s = Some g ->
    HomePage.movie_slug g <> "" ->
    let s' := fst (HomePage.step s (HomePage.NewMovie srv)) in
    (List.length (snd (HomePage.step s (HomePage.NewMovie srv))) <= 5)%nat
    /\ ((exists g',
            HomePage.movie_slug g' <> HomePage.movie_slug g
            /\ s' = freshSession g')
        \/ (sameSession s s'
            /\ HomePage.guess s' = HomePage.guess s
            /\ exists msg, HomePage.statusMessage s' = Some msg)).
Proof.
  intros s g srv Hg Hslug s'. subst s'. cbn [HomePage.step].
  unfold HomePage.newMovieOptions. rewrite Hg.
  rewrite fetchGame_excluding. cbn [fst snd].
  split.
  - destruct (fetchLoop_log srv true (Some (HomePage.movie_slug g)) 5 0)
      as (n & Hn & ->).
    now rewrite repeat_length.
  - destruct (fst (HomePage.fetchLoop true (Some (HomePage.movie_slug g)) srv
                     5 0)) as [g'| |] eqn:Hexit.
    + left. exists g'. split; [|reflexivity].
      now apply (fetchLoop_found_differs srv _ 5 Hslug 0%nat).
    + right. split; [repeat split|]. split; [reflexivity|].
      now exists HomePage.msgNoDifferent.
    + right. split; [repeat split|]. split; [reflexivity|].
      now exists HomePage.msgNewMovieFailed.
Qed.

Lemma new_movie_never_repeats_slug_witness :
  let s := playing "A" 3 5 (Some "C4") ["C1"; "C2"; "C3"] in
  (List.length
     (snd (HomePage.step s (HomePage.NewMovie (serving ["A"; "B"]))))
   <= 5)%nat
  /\ option_map HomePage.movie_slug
       (HomePage.game
          (fst (HomePage.step s (HomePage.NewMovie (serving ["A"; "B"])))))
     <> Some "".
Proof.
  cbv zeta.
  assert (Hslug : HomePage.movie_slug (sessionOf "A" "C1" 0 5) <> "")
    by discriminate.
  destruct (new_movie_never_repeats_slug
              (playing "A" 3 5 (Some "C4") ["C1"; "C2"; "C3"])
              (sessionOf "A" "C1" 0 5) (serving ["A"; "B"]) eq_refl Hslug)
    as [Hlen _].
  split; [exact Hlen | discriminate].
Defined.

(** ** Invariants of the runs *)

Section RunInvariants.
Import HomePage.

(** The three ways a submission can end. *)
Lemma handleSubmitGuess_cases (s : State)
    (srv : GuessBody -> Response GuessResponse) :
  fst (handleSubmitGuess srv s) = s
  \/ (exists data,
         game s <> None /\ finished s = false
         /\ fst (handleSubmitGuess srv s) = setGuess "" (applyVerdict s data s))
  \/ fst (handleSubmitGuess srv s)
     = setGuess "" (setStatusMessage (Some msgGuessFailed) s).
Proof.
  unfold handleSubmitGuess.
  destruct (game s) as [g|] eqn:Hg; [|now left].
  destruct (finished s) eqn:Hfin; [now left|].
  destruct (srv (mkGuessBody (movie_slug g) (guess s) (currentClueIndex s)))
    as [data| |]; cbn [fst].
  - right. left. exists data. repeat split. discriminate.
  - now right; right.
  - now right; right.
Qed.

(** What a verdict leaves alone, and what it may add to the history. *)
Lemma applyVerdict_frame (s : State) (data : GuessResponse) :
  let s' := applyVerdict s data s in
  game s' = game s
  /\ isLoadingGame s' = isLoadingGame s
  /\ (previousClues s' = previousClues s
      \/ exists text,
        text <> "" /\ finished s' = finished s
        /\ previousClues s' = (previousClues s ++ [text])%list)
  /\ (finished s' = true \/
      (finished s' = finished s /\ revealedTitle s' = revealedTitle s
       /\ posterUrl s' = posterUrl s)).
Proof.
  unfold applyVerdict.
  destruct (correct data || verdict_finished data).
  - destruct (truthy (reveal_poster_url data)), (truthy (next_clue_text data));
      cbn; repeat split; auto.
  - cbv zeta.
    cbn [game isLoadingGame finished revealedTitle posterUrl previousClues
         setStatusMessage setPreviousClues setCurrentClueIndex
         setCurrentClueText].
    split; [reflexivity|]. split; [reflexivity|]. split; [|now right].
    destruct (currentClueText s) as [text|]; [|now left].
    destruct (truthy (Some text)) eqn:Htext; [|now left].
    right. exists text. split; [now apply truthy_Some | now split].
Qed.

Lemma wellFormed_initial : wellFormed initialState.
Proof. unfold wellFormed. cbn. repeat split; auto. Qed.

Lemma wellFormed_fresh (g : TodayGameResponse) : wellFormed (freshSession g).
Proof.
  unfold wellFormed. cbn. repeat split; auto; discriminate.
Qed.

Lemma wellFormed_message (s : State) (msg : option string) :
  wellFormed s -> wellFormed (setIsLoadingGame false (setStatusMessage msg s)).
Proof.
  unfold wellFormed. cbn. intros (_ & Ht & Hg & Hp). auto.
Qed.

Lemma wellFormed_step (s : State) (a : Action) :
  wellFormed s -> wellFormed (fst (step s a)).
Proof.
  intros Hwf. destruct a as [srv|value|srv|srv]; cbn [step].
  - destruct (fetchGame_outcome srv s None)
      as [(g & _ & ->) | (msg & _ & ->)];
      [apply wellFormed_fresh | now apply wellFormed_message].
  - exact Hwf.
  - destruct (handleSubmitGuess_cases s srv)
      as [-> | [(data & Hgame & Hact & ->) | ->]].
    + exact Hwf.
    + destruct Hwf as (Hl & Ht & Hg & Hp).
      destruct (applyVerdict_frame s data) as (Hg' & Hl' & Hprev & Hrest).
      unfold wellFormed.
      cbn [isLoadingGame finished revealedTitle game currentClueIndex
           currentClueText previousClues posterUrl setGuess].
      split; [congruence|]. split; [|split].
      * destruct Hrest as [Hfin | (Hfin & Htitle & _)]; [congruence|].
        intros _. rewrite Htitle. apply Ht. congruence.
      * intros Hnone. rewrite Hg' in Hnone. now destruct Hgame.
      * destruct Hprev as [-> | (text & Htext & _ & ->)]; [exact Hp|].
        apply Forall_app. split; [exact Hp|]. now constructor.
    + destruct Hwf as (Hl & Ht & Hg & Hp). unfold wellFormed. cbn. auto.
  - destruct (fetchGame_outcome srv s (newMovieOptions s))
      as [(g & _ & ->) | (msg & _ & ->)];
      [apply wellFormed_fresh | now apply wellFormed_message].
Qed.

Lemma wellFormed_run (actions : list Action) :
  forall s, wellFormed s -> wellFormed (run s actions).
Proof.
  induction actions as [|a rest IH]; intros s Hwf.
  - exact Hwf.
  - cbn [run fold_left]. apply IH. now apply wellFormed_step.
Qed.

(** One action never unloads the game. *)
Lemma step_keeps_game (s : State) (a : Action) :
  game s <> None -> game (fst (step s a)) <> None.
Proof.
  intros Hgame. destruct a as [srv|value|srv|srv]; cbn [step].
  - destruct (fetchGame_outcome srv s None)
      as [(g & _ & ->) | (msg & _ & ->)]; [discriminate | exact Hgame].
  - exact Hgame.
  - destruct (handleSubmitGuess_cases s srv)
      as [-> | [(data & _ & _ & ->) | ->]]; try exact Hgame.
    destruct (applyVerdict_frame s data) as (Hg' & _).
    cbn [game setGuess]. now rewrite Hg'.
  - destruct (fetchGame_outcome srv s (newMovieOptions s))
      as [(g & _ & ->) | (msg & _ & ->)]; [discriminate | exact Hgame].
Qed.

(** One action that installs no game keeps the game and can only add one
    clue at the end of the history. *)
Lemma step_appends (s : State) (a : Action) :
  loadsSession s a = false ->
  game (fst (step s a)) = game s
  /\ exists suffix,
      previousClues (fst (step s a)) = (previousClues s ++ suffix)%list
      /\ (List.length suffix <= 1)%nat.
Proof.
  intros Hload.
  assert (Hsame : forall s', sameSession s s' ->
            game s' = game s
            /\ exists suffix,
                previousClues s' = (previousClues s ++ suffix)%list
                /\ (List.length suffix <= 1)%nat).
  { intros s' (Hg & _ & _ & Hp & _). split; [exact Hg|].
    exists []. rewrite app_nil_r. split; [exact Hp | cbn; lia]. }
  destruct a as [srv|value|srv|srv]; cbn [step].
  - destruct (fetchGame_nothing_installed srv s None
                (loadsSession_false_Mount srv s Hload)) as (msg & _ & ->).
    apply Hsame. repeat split.
  - apply Hsame. repeat split.
  - destruct (handleSubmitGuess_cases s srv)
      as [-> | [(data & _ & _ & ->) | ->]].
    + apply Hsame. repeat split.
    + destruct (applyVerdict_frame s data) as (Hg' & _ & Hprev & _).
      cbn [game previousClues setGuess]. split; [exact Hg'|].
      destruct Hprev as [-> | (text & _ & _ & ->)].
      * exists []. rewrite app_nil_r. split; [reflexivity | cbn; lia].
      * exists [text]. split; [reflexivity | cbn; lia].
    + apply Hsame. repeat split.
  - destruct (fetchGame_nothing_installed srv s (newMovieOptions s)
                (loadsSession_false_NewMovie srv s Hload)) as (msg & _ & ->).
    apply Hsame. repeat split.
Qed.

End RunInvariants.

(** [fetchGame] goes through [pendingLoad]: what it returns is the final
    state of a call that started there. *)
Lemma fetchGame_from_pendingLoad (options : option HomePage.FetchOptions)
    (srv : nat -> Response HomePage.TodayGameResponse) (s : HomePage.State) :
  fst (HomePage.fetchGame options srv s)
  = HomePage.setIsLoadingGame false
      (match fst (HomePage.fetchLoop (HomePage.requireDifferentOf options)
                    (HomePage.excludeSlugOf options) srv
                    (HomePage.maxAttemptsOf
                       (HomePage.requireDifferentOf options)) 0) with
       | HomePage.Found nextGame =>
           HomePage.installGame (HomePage.requireDifferentOf options) nextGame
             (HomePage.pendingLoad options s)
       | HomePage.NotFound =>
           HomePage.setStatusMessage (Some HomePage.msgNoDifferent)
             (HomePage.pendingLoad options s)
       | HomePage.Thrown =>
           HomePage.setStatusMessage
             (Some (if HomePage.requireDifferentOf options
                    then HomePage.msgNewMovieFailed
                    else HomePage.msgLoadFailed))
             (HomePage.pendingLoad options s)
       end).
Proof.
  unfold HomePage.fetchGame, HomePage.pendingLoad.
  destruct (HomePage.fetchLoop _ _ _ _ _) as [exit log]. reflexivity.
Qed.

Lemma pendingLoad_frame (options : option HomePage.FetchOptions)
    (s : HomePage.State) :
  HomePage.isLoadingGame (HomePage.pendingLoad options s) = true
  /\ HomePage.game (HomePage.pendingLoad options s) = HomePage.game s
  /\ HomePage.finished (HomePage.pendingLoad options s) = HomePage.finished s
  /\ HomePage.revealedTitle (HomePage.pendingLoad options s)
     = HomePage.revealedTitle s
  /\ HomePage.posterUrl (HomePage.pendingLoad options s)
     = HomePage.posterUrl s.
Proof.
  unfold HomePage.pendingLoad.
  destruct (HomePage.requireDifferentOf options); repeat split.
Qed.

(** X7.  Take a state [s] the component is in once a sequence of actions
    from its first render has completed, whatever the collaborator
    answered, and the state [pendingLoad options s] it renders while a load
    started there is still awaited.  In both, a title is revealed only in a
    finished session, so that while a session is played the poster's
    alternative text is the one that does not name the film, and a finished
    session always has a game.  While the load is awaited the loading flag
    is up and the "New movie" button, when it is drawn, is disabled. *)
Theorem reveal_only_when_finished :
  forall (actions : list HomePage.Action),
    let s := HomePage.run HomePage.initialState actions in
    (forall s',
        s' = s \/ (exists options, s' = HomePage.pendingLoad options s) ->
        (HomePage.finished s' = false -> HomePage.revealedTitle s' = None)
        /\ (HomePage.finished s' = false ->
            forall image,
              HomePage.poster (HomePage.render s') = Some image ->
              HomePage.alt image = "Blurred poster for today's film")
        /\ (HomePage.finished s' = true -> HomePage.game s' <> None))
    /\ (forall options,
           HomePage.isLoadingGame (HomePage.pendingLoad options s) = true
           /\ forall p,
               HomePage.panel (HomePage.render (HomePage.pendingLoad options s))
               = Some p ->
               HomePage.newMovieDisabled p = true).
Proof.
  intros actions s.
  destruct (wellFormed_run actions _ wellFormed_initial)
    as (_ & Ht & Hg & _).
  fold s in Ht, Hg.
  assert (Hboth : forall s',
             HomePage.game s' = HomePage.game s ->
             HomePage.finished s' = HomePage.finished s ->
             HomePage.revealedTitle s' = HomePage.revealedTitle s ->
             (HomePage.finished s' = false -> HomePage.revealedTitle s' = None)
             /\ (HomePage.finished s' = false ->
                 forall image,
                   HomePage.poster (HomePage.render s') = Some image ->
                   HomePage.alt image = "Blurred poster for today's film")
             /\ (HomePage.finished s' = true -> HomePage.game s' <> None)).
  { intros s' Eg Ef Et. rewrite Ef, Et, Eg.
    split; [exact Ht|]. split.
    - intros Hact image. unfold HomePage.render. cbn [HomePage.poster].
      rewrite Et, (Ht Hact).
      destruct (HomePage.posterUrl s') as [url|]; [|discriminate].
      destruct (truthy (Some url)); [|discriminate].
      now intros [= <-].
    - intros Hfin Hnone. destruct (Hg Hnone) as (_ & _ & _ & Hf & _).
      congruence. }
  split.
  - intros s' [-> | (options & ->)].
    + now apply Hboth.
    + destruct (pendingLoad_frame options s) as (_ & Eg & Ef & Et & _).
      now apply Hboth.
  - intros options.
    destruct (pendingLoad_frame options s) as (Hl & _).
    split; [exact Hl|].
    intros p. unfold HomePage.render. cbn [HomePage.panel].
    destruct (HomePage.game (HomePage.pendingLoad options s)); [|discriminate].
    intros [= <-]. cbn [HomePage.newMovieDisabled]. exact Hl.
Qed.

Lemma reveal_only_when_finished_witness :
  let s :=
    HomePage.run HomePage.initialState
      [HomePage.Mount (always "x");
       HomePage.SubmitGuess (fun _ => Ok200 (rightGuess (Some "Movie X")));
       HomePage.NewMovie (always "y")] in
  HomePage.revealedTitle (HomePage.pendingLoad (HomePage.newMovieOptions s) s)
  = None
  /\ HomePage.isLoadingGame
       (HomePage.pendingLoad (HomePage.newMovieOptions s) s) = true.
Proof.
  cbv zeta.
  destruct (reveal_only_when_finished
              [HomePage.Mount (always "x");
               HomePage.SubmitGuess
                 (fun _ => Ok200 (rightGuess (Some "Movie X")));
               HomePage.NewMovie (always "y")])
    as (Hreveal & Hflag).
  split.
  - pose (s := HomePage.run HomePage.initialState
                 [HomePage.Mount (always "x");
                  HomePage.SubmitGuess
                    (fun _ => Ok200 (rightGuess (Some "Movie X")));
                  HomePage.NewMovie (always "y")]).
    destruct (Hreveal (HomePage.pendingLoad (HomePage.newMovieOptions s) s))
      as (Ht & _).
    + right. exists (HomePage.newMovieOptions s). reflexivity.
    + exact (Ht eq_refl).
  - exact (proj1 (Hflag _)).
Defined.

(** X8.  As long as no game has been loaded, the page is the one of the
    first render: the loading notice, no poster, no panel.  The status
    message of a failed first load is stored but not rendered, and there is
    no form and no "New movie" button to act on. *)
Theorem nothing_shown_before_game :
  forall (actions : list HomePage.Action),
    let s := HomePage.run HomePage.initialState actions in
    HomePage.game s = None ->
    HomePage.render s = HomePage.render HomePage.initialState
    /\ HomePage.loadingNotice (HomePage.render s) = true
    /\ HomePage.panel (HomePage.render s) = None
    /\ HomePage.currentClueIndex s = 0
    /\ HomePage.previousClues s = [].
Proof.
  intros actions s Hnone.
  destruct (wellFormed_run actions _ wellFormed_initial)
    as (_ & _ & Hg & _).
  fold s in Hg. destruct (Hg Hnone) as (Hi & _ & Hp & Hf & Hu).
  unfold HomePage.render. rewrite Hnone, Hf, Hu. cbn.
  repeat split; assumption.
Qed.

Lemma nothing_shown_before_game_witness :
  let s :=
    HomePage.run HomePage.initialState
      [HomePage.Mount (fun _ => NotOk); HomePage.ChangeGuess "Heat";
       HomePage.SubmitGuess (fun _ => Ok200 (rightGuess (Some "Heat")))] in
  HomePage.statusMessage s = Some HomePage.msgLoadFailed
  /\ HomePage.render s = HomePage.render HomePage.initialState.
Proof.
  cbv zeta. split; [reflexivity|].
  exact (proj1 (nothing_shown_before_game
                  [HomePage.Mount (fun _ => NotOk);
                   HomePage.ChangeGuess "Heat";
                   HomePage.SubmitGuess
                     (fun _ => Ok200 (rightGuess (Some "Heat")))]
                  eq_refl)).
Defined.

(** X9.  No entry of [previousClues] is ever the empty string, in any state
    reached from the first render: a clue is recorded only when it has a
    text. *)
Theorem recorded_clues_not_empty :
  forall (actions : list HomePage.Action),
    Forall (fun clue => clue <> "")
      (HomePage.previousClues (HomePage.run HomePage.initialState actions)).
Proof.
  intros actions.
  now destruct (wellFormed_run actions _ wellFormed_initial)
    as (_ & _ & _ & Hp).
Qed.

(** X10.  A loaded game is never unloaded: whatever happens afterwards
    (failed reloads and failed submissions included) there is a game, so the
    loading notice does not come back and the panel stays. *)
Theorem game_never_unloaded :
  forall (s : HomePage.State) (actions : list HomePage.Action),
    HomePage.game s <> None ->
    HomePage.game (HomePage.run s actions) <> None
    /\ HomePage.loadingNotice (HomePage.render (HomePage.run s actions))
       = false
    /\ HomePage.panel (HomePage.render (HomePage.run s actions)) <> None.
Proof.
  intros s actions Hgame.
  assert (Hkept : HomePage.game (HomePage.run s actions) <> None).
  { revert s Hgame. induction actions as [|a rest IH]; intros s Hgame.
    - exact Hgame.
    - cbn [HomePage.run fold_left]. apply IH. now apply step_keeps_game. }
  split; [exact Hkept|]. unfold HomePage.render.
  cbn [HomePage.loadingNotice HomePage.panel].
  destruct (HomePage.game (HomePage.run s actions));
    [split; [reflexivity | discriminate] | now destruct Hkept].
Qed.

Lemma game_never_unloaded_witness :
  HomePage.game
    (HomePage.run (playing "x" 1 5 (Some "C2") ["C1"])
       [HomePage.NewMovie (fun _ => Rejected);
        HomePage.SubmitGuess (fun _ => NotOk);
        HomePage.Mount (fun _ => NotOk)])
  <> None.
Proof.
  apply (game_never_unloaded (playing "x" 1 5 (Some "C2") ["C1"])).
  discriminate.
Defined.

(** X11.  Within a session, that is along a run in which no game is
    installed, the game is never changed and [previousClues] only grows at
    its end, by at most one clue per action: what was recorded stays
    recorded, in the same order. *)
Theorem history_append_only :
  forall (s s' : HomePage.State) (actions : list HomePage.Action),
    RunsWithoutLoad s actions s' ->
    HomePage.game s' = HomePage.game s
    /\ exists suffix,
        HomePage.previousClues s'
        = (HomePage.previousClues s ++ suffix)%list
        /\ (List.length suffix <= List.length actions)%nat.
Proof.
  induction 1 as [s|s s' a rest Hload Hrun IH].
  - split; [reflexivity|]. exists []. rewrite app_nil_r.
    split; [reflexivity | cbn; lia].
  - destruct (step_appends s a Hload) as (Hg & one & Hone & Hlen).
    destruct IH as (Hg' & more & Hmore & Hlen').
    split; [congruence|].
    exists (one ++ more)%list. split.
    + now rewrite Hmore, Hone, app_assoc.
    + rewrite length_app. cbn [List.length]. lia.
Qed.

Lemma history_append_only_witness :
  let s := playing "x" 1 5 (Some "C2") ["C1"] in
  let actions :=
    [HomePage.SubmitGuess (fun _ => Ok200 (wrongGuess 2 (Some "C3")));
     HomePage.NewMovie (always "x");
     HomePage.SubmitGuess (fun _ => Ok200 (wrongGuess 3 None))] in
  exists suffix,
    HomePage.previousClues (HomePage.run s actions) = ("C1" :: suffix)%list.
Proof.
  cbv zeta.
  pose (s := playing "x" 1 5 (Some "C2") ["C1"]).
  pose (actions :=
          [HomePage.SubmitGuess (fun _ => Ok200 (wrongGuess 2 (Some "C3")));
           HomePage.NewMovie (always "x");
           HomePage.SubmitGuess (fun _ => Ok200 (wrongGuess 3 None))]).
  assert (Hrun : RunsWithoutLoad s actions (HomePage.run s actions)).
  { repeat (apply rwl_step; [reflexivity|]). vm_compute. apply rwl_done. }
  destruct (history_append_only s _ actions Hrun) as (_ & suffix & Heq & _).
  exists suffix. exact Heq.
Defined.

(** ** The two variants side by side *)



(** ** The rendered page *)

(** A verdict keeps the game and puts its message in the status line. *)
Lemma verdict_message (s : HomePage.State) (g : HomePage.TodayGameResponse)
    (srv : GuessBody -> Response GuessResponse) (data : GuessResponse) :
  HomePage.game s = Some g ->
  HomePage.finished s = false ->
  srv (mkGuessBody (HomePage.movie_slug g) (HomePage.guess s)
         (HomePage.currentClueIndex s)) = Ok200 data ->
  HomePage.game (fst (HomePage.handleSubmitGuess srv s)) = Some g
  /\ HomePage.statusMessage (fst (HomePage.handleSubmitGuess srv s))
     = Some (message data).
Proof.
  intros Hg Hact Hsrv.
  rewrite (handleSubmitGuess_verdict s g srv data Hg Hact Hsrv). cbn [fst].
  destruct (applyVerdict_frame s data) as (Hg' & _).
  cbn [HomePage.game HomePage.statusMessage HomePage.setGuess].
  split; [now rewrite Hg'|].
  unfold HomePage.applyVerdict.
  destruct (correct data || verdict_finished data);
    [destruct (truthy (reveal_poster_url data)),
       (truthy (next_clue_text data))|]; reflexivity.
Qed.

Lemma numberedFrom_rows (clues : list string) :
  forall index,
    map snd (HomePage.numberedFrom index clues) = clues
    /\ forall k row,
        nth_error (HomePage.numberedFrom index clues) k = Some row ->
        fst row = Z.of_nat (index + k) + 1
        /\ nth_error clues k = Some (snd row).
Proof.
  induction clues as [|clue rest IH]; intros index; cbn [HomePage.numberedFrom].
  - split; [reflexivity|]. intros [|k] row; discriminate.
  - destruct (IH (S index)) as [Hmap Hrows]. split.
    + cbn [map snd]. now rewrite Hmap.
    + intros [|k] row; cbn [nth_error].
      * intros [= <-]. cbn [fst snd]. rewrite Nat.add_0_r. now split.
      * intros Hrow. destruct (Hrows k row Hrow) as [Hfst Hsnd].
        split; [|exact Hsnd]. rewrite Hfst. f_equal. lia.
Qed.

(** X13.  The panel of previous clues is rendered exactly when a game is
    loaded and the history is not empty; it then lists every recorded clue
    once, in the order of recording, and numbers them from 1. *)
Theorem previous_clues_panel_rows :
  forall (s : HomePage.State),
    (HomePage.previousCluesPanel (HomePage.render s) <> None
     <-> HomePage.game s <> None /\ HomePage.previousClues s <> [])
    /\ (forall rows,
           HomePage.previousCluesPanel (HomePage.render s) = Some rows ->
           map snd rows = HomePage.previousClues s
           /\ forall k row,
               nth_error rows k = Some row ->
               fst row = Z.of_nat k + 1
               /\ nth_error (HomePage.previousClues s) k = Some (snd row)).
Proof.
  intros s. unfold HomePage.render. cbn [HomePage.previousCluesPanel].
  destruct (HomePage.game s) as [g|].
  - destruct (HomePage.previousClues s) as [|clue rest] eqn:Hprev.
    + cbn. split.
      * split; [intros H; now destruct H | intros [_ H]; now destruct H].
      * discriminate.
    + cbn [List.length Nat.ltb Nat.leb]. split.
      * split; [intros _; split; discriminate | discriminate].
      * intros rows [= <-].
        destruct (numberedFrom_rows (clue :: rest) 0) as [Hmap Hrows].
        split; [exact Hmap|]. intros k row Hrow.
        exact (Hrows k row Hrow).
  - split.
    + split; [intros H; now destruct H | intros [H _]; now destruct H].
    + discriminate.
Qed.

Lemma previous_clues_panel_rows_witness :
  HomePage.previousCluesPanel
    (HomePage.render (playing "x" 2 5 (Some "C3") ["C1"; "C2"]))
  <> None.
Proof.
  apply (proj1 (previous_clues_panel_rows
                  (playing "x" 2 5 (Some "C3") ["C1"; "C2"]))).
  split; discriminate.
Defined.

(** X14.  After a finishing verdict the page has no guess form, the
    "reveal in progress" overlay is gone, a poster, if there is one, is
    drawn with blur 0 and at scale 1, the status line shows the verdict's
    message, and the "film was" box is there exactly when the verdict
    carries a title that is neither null nor empty: a missing title leaves
    the box out, with [finished] set all the same. *)
Theorem page_after_finishing_verdict :
  forall (s : HomePage.State) (g : HomePage.TodayGameResponse)
         (srv : GuessBody -> Response GuessResponse) (data : GuessResponse),
    HomePage.game s = Some g ->
    HomePage.finished s = false ->
    srv (mkGuessBody (HomePage.movie_slug g) (HomePage.guess s)
           (HomePage.currentClueIndex s)) = Ok200 data ->
    correct data || verdict_finished data = true ->
    let v := HomePage.render (fst (HomePage.handleSubmitGuess srv s)) in
    HomePage.revealInProgress v = false
    /\ (forall image,
           HomePage.poster v = Some image ->
           HomePage.blurPx image = of_Z 0
           /\ HomePage.transform image = "scale(1)")
    /\ exists p,
        HomePage.panel v = Some p
        /\ HomePage.guessInput p = None
        /\ HomePage.revealed p
           = (if truthy (reveal_title data) then reveal_title data else None)
        /\ HomePage.status p
           = (if truthy (Some (message data)) then Some (message data)
              else None).
Proof.
  intros s g srv data Hg Hact Hsrv Hv v. subst v.
  destruct (verdict_finishing s g srv data Hg Hact Hsrv Hv)
    as (Hf & Ht & _).
  destruct (verdict_message s g srv data Hg Hact Hsrv) as (Hg' & Hmsg).
  set (s' := fst (HomePage.handleSubmitGuess srv s)) in *.
  unfold HomePage.render.
  cbn [HomePage.revealInProgress HomePage.poster HomePage.panel].
  rewrite Hf. split; [reflexivity|]. split.
  - intros image Himage.
    destruct (HomePage.posterUrl s') as [url|]; [|discriminate].
    destruct (truthy (Some url)); [|discriminate].
    injection Himage as <-. cbn [HomePage.blurPx HomePage.transform].
    split; [|reflexivity].
    apply posterBlurAmount_zero. right. now left.
  - rewrite Hg'. eexists. split; [reflexivity|].
    cbn [HomePage.guessInput HomePage.revealed HomePage.status].
    rewrite Ht, Hmsg. repeat split.
Qed.

Lemma page_after_finishing_verdict_witness :
  let s := playing "x" 2 5 (Some "C3") ["C1"; "C2"] in
  let data := mkGuessResponse false true 3 None None None "Out of clues." in
  HomePage.revealInProgress
    (HomePage.render (fst (HomePage.handleSubmitGuess (fun _ => Ok200 data) s)))
  = false.
Proof.
  cbv zeta.
  exact (proj1 (page_after_finishing_verdict
                  (playing "x" 2 5 (Some "C3") ["C1"; "C2"])
                  (sessionOf "x" "C1" 0 5)
                  (fun _ =>
                     Ok200 (mkGuessResponse false true 3 None None None
                              "Out of clues."))
                  (mkGuessResponse false true 3 None None None
                     "Out of clues.")
                  eq_refl eq_refl eq_refl eq_refl)).
Defined.

(** ** The derived values at their ends *)

(** X15.  For a session played with a poster, with a positive number of
    clues and integers that doubles hold exactly (below 2^53): the blur is
    exactly 30 at the first clue, whatever the number of clues (a game of a
    single clue is thus drawn at 30, not at 12); it lies between 12 and 30
    at every index; and from index [max(total_clues - 1, 1)] on, past the
    last clue included, it stays at exactly 12.  The roundings of the
    doubles the blur is computed with do not take it out of these bounds. *)
Theorem poster_blur_range :
  forall (s : HomePage.State) (g : HomePage.TodayGameResponse),
    HomePage.game s = Some g ->
    truthy (HomePage.posterUrl s) = true ->
    HomePage.finished s = false ->
    1 <= HomePage.total_clues g ->
    safeInteger (HomePage.total_clues g) ->
    safeInteger (HomePage.currentClueIndex s) ->
    (HomePage.currentClueIndex s = 0 ->
     num_eq (HomePage.posterBlurAmount s) (of_Z 30))
    /\ num_le (of_Z 12) (HomePage.posterBlurAmount s)
    /\ num_le (HomePage.posterBlurAmount s) (of_Z 30)
    /\ (Z.max (HomePage.total_clues g - 1) 1 <= HomePage.currentClueIndex s ->
        num_eq (HomePage.posterBlurAmount s) (of_Z 12)).
Proof.
  intros s g Hg Hposter Hact Htotal Hsafe Hidx.
  destruct (posterBlurAmount_stages_here s g Hg Hposter Hact Htotal Hsafe Hidx)
    as (q & -> & E).
  cbn [num_eq num_le of_Z].
  destruct (blurStages_range (HomePage.currentClueIndex s)
              (HomePage.total_clues g) (proj1 Hidx)) as [Hlo Hhi].
  change (inject_Z 12) with 12%Q. change (inject_Z 30) with 30%Q.
  rewrite E. split; [|split; [exact Hlo | split; [exact Hhi|]]].
  - intros ->. apply blurStages_first.
  - intros Hpast. now apply blurStages_clamped.
Qed.

Lemma poster_blur_range_witness :
  num_eq
    (HomePage.posterBlurAmount (playing "x" 0 1 (Some "C1") []))
    (of_Z 30)
  /\ num_eq
       (HomePage.posterBlurAmount
          (playing "x" 5 5 (Some "C5") ["C1"; "C2"; "C3"; "C4"]))
       (of_Z 12).
Proof.
  split.
  - destruct (poster_blur_range (playing "x" 0 1 (Some "C1") [])
                (sessionOf "x" "C1" 0 1) eq_refl eq_refl eq_refl)
      as (Hfirst & _).
    + cbn. lia.
    + unfold safeInteger. cbn. lia.
    + unfold safeInteger. cbn. lia.
    + exact (Hfirst eq_refl).
  - destruct (poster_blur_range
                (playing "x" 5 5 (Some "C5") ["C1"; "C2"; "C3"; "C4"])
                (sessionOf "x" "C1" 0 5) eq_refl eq_refl eq_refl)
      as (_ & _ & _ & Hlast).
    + cbn. lia.
    + unfold safeInteger. cbn. lia.
    + unfold safeInteger. cbn. lia.
    + apply Hlast. cbn. lia.
Defined.

(** X16.  The clue-progress percentage at its ends, for an index that is
    not negative and whose successor a double holds exactly.  With a
    positive number of clues, itself below 2^53, the percentage is capped
    at exactly 100 from the last clue on, past it included; and with at
    most 2^48 clues it is strictly below 100 before the last clue.  With
    [total_clues] equal to 0 the division gives infinity, which the cap
    turns into 100. *)
Theorem clue_progress_ends :
  forall (s : HomePage.State) (g : HomePage.TodayGameResponse),
    HomePage.game s = Some g ->
    0 <= HomePage.currentClueIndex s ->
    safeInteger (HomePage.currentClueIndex s + 1) ->
    (1 <= HomePage.total_clues g ->
     safeInteger (HomePage.total_clues g) ->
     HomePage.total_clues g - 1 <= HomePage.currentClueIndex s ->
     num_eq (HomePage.clueProgressPercent s) (of_Z 100))
    /\ (1 <= HomePage.total_clues g ->
        HomePage.total_clues g <= 2 ^ 48 ->
        HomePage.currentClueIndex s < HomePage.total_clues g - 1 ->
        num_lt (HomePage.clueProgressPercent s) (of_Z 100))
    /\ (HomePage.total_clues g = 0 ->
        HomePage.clueProgressPercent s = of_Z 100).
Proof.
  intros s g Hg Hidx Hnext.
  split; [|split].
  - intros Htotal Hsafe Hpast.
    destruct (clueProgressPercent_stages_here s g Hg Htotal Hsafe Hidx Hnext)
      as (q & -> & E).
    cbn [num_eq of_Z]. rewrite E.
    now apply percentStages_capped.
  - intros Htotal Hsize Hbelow.
    assert (Hsafe : safeInteger (HomePage.total_clues g))
      by (unfold safeInteger; lia).
    destruct (clueProgressPercent_stages_here s g Hg Htotal Hsafe Hidx Hnext)
      as (q & -> & E).
    cbn [num_lt of_Z]. rewrite E.
    rewrite <- (percentStages_capped (HomePage.total_clues g - 1)
                  (HomePage.total_clues g)) by lia.
    apply percentStages_strict; lia.
  - intros Hzero. unfold HomePage.clueProgressPercent. rewrite Hg, Hzero.
    assert (Hsafe : safeInteger (HomePage.currentClueIndex s))
      by (destruct Hnext; split; lia).
    destruct (safeInteger_bounds _ Hnext) as [Hn0 Hn53].
    pose proof two_53_below_two_64 as H64.
    assert (Hadd : hasValue
                     (num_add (of_integer (HomePage.currentClueIndex s))
                        (of_Z 1))
                     (inject_Z (HomePage.currentClueIndex s + 1))).
    { eapply hasValue_eq.
      - apply hasValue_add;
          [now apply hasValue_of_integer | apply hasValue_of_Z | |];
          rewrite <- inject_Z_plus; lra.
      - apply rne_small_int; [exact Hnext|]. now rewrite inject_Z_plus. }
    destruct Hadd as (q & -> & E).
    assert (Hpos : (0 < q)%Q).
    { rewrite E. apply inject_Z_positive. lia. }
    assert (Hzero' : of_integer 0 = Fin 0) by (vm_compute; reflexivity).
    rewrite Hzero'. unfold num_div.
    change (Qeq_bool 0 0) with true. cbv iota.
    assert (Hne : Qeq_bool q 0 = false).
    { destruct (Qeq_bool q 0) eqn:Eq0; [|reflexivity].
      apply Qeq_bool_iff in Eq0. lra. }
    assert (Hgt : Qltb 0 q = true).
    { unfold Qltb. apply negb_true_iff.
      destruct (Qle_bool q 0) eqn:Ele; [|reflexivity].
      apply Qle_bool_iff in Ele. lra. }
    rewrite Hne, Hgt. reflexivity.
Qed.

Lemma clue_progress_ends_witness :
  HomePage.clueProgressPercent (playing "x" 2 0 (Some "C3") ["C1"; "C2"])
  = of_Z 100
  /\ num_eq
       (HomePage.clueProgressPercent
          (playing "x" 5 5 (Some "C5") ["C1"; "C2"; "C3"; "C4"]))
       (of_Z 100)
  /\ num_lt
       (HomePage.clueProgressPercent
          (playing "x" 1 5 (Some "C2") ["C1"]))
       (of_Z 100).
Proof.
  split; [|split].
  - destruct (clue_progress_ends (playing "x" 2 0 (Some "C3") ["C1"; "C2"])
                (sessionOf "x" "C1" 0 0) eq_refl)
      as (_ & _ & Hzero).
    + cbn. lia.
    + unfold safeInteger. cbn. lia.
    + exact (Hzero eq_refl).
  - destruct (clue_progress_ends
                (playing "x" 5 5 (Some "C5") ["C1"; "C2"; "C3"; "C4"])
                (sessionOf "x" "C1" 0 5) eq_refl)
      as (Hcap & _).
    + cbn. lia.
    + unfold safeInteger. cbn. lia.
    + apply Hcap; [cbn; lia | unfold safeInteger; cbn; lia | cbn; lia].
  - destruct (clue_progress_ends (playing "x" 1 5 (Some "C2") ["C1"])
                (sessionOf "x" "C1" 0 5) eq_refl)
      as (_ & Hbelow & _).
    + cbn. lia.
    + unfold safeInteger. cbn. lia.
    + apply Hbelow; cbn; lia.
Defined.


(** ** page.tsx after a failed load *)

(** X17.  In the variant of page.tsx a first load that fails stores its
    message, but the page stays on the loading notice for good: the message
    is rendered only inside the section of a loaded game, and neither typing
    nor submitting loads one or issues any request. *)
Theorem page_stuck_after_failed_load :
  forall (r : Response PageTsx.TodayGameResponse) (inputs : list Input),
    (forall data, r <> Ok200 data) ->
    let s :=
      PageTsx.run PageTsx.initialState
        (PageTsx.Mount r :: map pageInput inputs) in
    PageTsx.render s = PageTsx.LoadingNotice
    /\ PageTsx.statusMessage s = Some "Could not load today's game."
    /\ forall i, snd (PageTsx.step s (pageInput i)) = [].
Proof.
  intros r inputs Hfail s.
  assert (Hstuck : PageTsx.game s = None
                   /\ PageTsx.statusMessage s
                      = Some "Could not load today's game.").
  { subst s. cbn [PageTsx.run fold_left PageTsx.step].
    assert (Hstart :
              PageTsx.game (fst (PageTsx.fetchGame r PageTsx.initialState))
              = None
              /\ PageTsx.statusMessage
                   (fst (PageTsx.fetchGame r PageTsx.initialState))
                 = Some "Could not load today's game.").
    { destruct r as [data| |]; [now destruct (Hfail data) | |];
        split; reflexivity. }
    revert Hstart.
    generalize (fst (PageTsx.fetchGame r PageTsx.initialState)).
    induction inputs as [|i rest IH]; intros p [Hgame Hmsg].
    - now split.
    - cbn [map fold_left]. apply IH.
      destruct i as [value|srv]; cbn [pageInput PageTsx.step].
      + now split.
      + unfold PageTsx.handleSubmitGuess. rewrite Hgame. now split. }
  destruct Hstuck as [Hgame Hmsg].
  split; [|split].
  - unfold PageTsx.render. now rewrite Hgame.
  - exact Hmsg.
  - intros [value|srv]; cbn [pageInput PageTsx.step]; [reflexivity|].
    unfold PageTsx.handleSubmitGuess. now rewrite Hgame.
Qed.

Lemma page_stuck_after_failed_load_witness :
  PageTsx.render
    (PageTsx.run PageTsx.initialState
       (PageTsx.Mount NotOk
        :: map pageInput
             [Typed "Heat";
              Submitted (fun _ => Ok200 (rightGuess (Some "Heat")))]))
  = PageTsx.LoadingNotice.
Proof.
  apply (page_stuck_after_failed_load NotOk
           [Typed "Heat";
            Submitted (fun _ => Ok200 (rightGuess (Some "Heat")))]).
  intros data. discriminate.
Defined.
